(** * rpi-home-plex: the webshare download tracker ([volumes/webshare/app.py])

    A shallow embedding of the download registry ([active_downloads]), the
    background download task ([download_file_background]), its delayed
    [cleanup] and the request handlers of the application, together with
    the properties of the progress-tracking subsystem and of the routes.

    The registry is a Python dict shared by every thread of the process.
    Each thread is embedded as a program over a small set of atomic
    registry operations; programs are run either alone ([run]) or
    interleaved by a scheduler ([sys_step]). *)

From Stdlib Require Import ZArith QArith Qround Qpower Lia Lqa Sorted.
From Stdlib Require Floats.SpecFloat.
From Stdlib Require Import Strings.Byte.
From stdpp Require Import gmap strings list pretty.

Local Open Scope Z_scope.

(** ** Data model *)

(** The values of the ['status'] key: ['downloading'], ['completed'], ['error']. *)
Inductive Status := Downloading | Completed | Error.

(** One entry of [active_downloads]: a dict whose keys are partly optional. *)
Record DownloadState := mkDownloadState {
  status : Status;
  fileName : option string;
  progress : Z;
  message : string;
  startTime : option Z;
  totalSize : option Z;
  downloadedSize : option Z;
  filePath : option string;
  finalSize : option Z;
  error : option string
}.

(** [active_downloads[file_id][key] = value], one constructor per key the
    program assigns. *)
Inductive Field :=
| FStatus (s : Status)
| FProgress (p : Z)
| FMessage (m : string)
| FTotalSize (n : Z)
| FDownloadedSize (n : Z)
| FFilePath (p : string)
| FFinalSize (n : Z).

Definition set_field (f : Field) (d : DownloadState) : DownloadState :=
  match f with
  | FStatus s => mkDownloadState s (fileName d) (progress d) (message d) (startTime d)
                   (totalSize d) (downloadedSize d) (filePath d) (finalSize d) (error d)
  | FProgress p => mkDownloadState (status d) (fileName d) p (message d) (startTime d)
                   (totalSize d) (downloadedSize d) (filePath d) (finalSize d) (error d)
  | FMessage m => mkDownloadState (status d) (fileName d) (progress d) m (startTime d)
                   (totalSize d) (downloadedSize d) (filePath d) (finalSize d) (error d)
  | FTotalSize n => mkDownloadState (status d) (fileName d) (progress d) (message d) (startTime d)
                   (Some n) (downloadedSize d) (filePath d) (finalSize d) (error d)
  | FDownloadedSize n => mkDownloadState (status d) (fileName d) (progress d) (message d) (startTime d)
                   (totalSize d) (Some n) (filePath d) (finalSize d) (error d)
  | FFilePath p => mkDownloadState (status d) (fileName d) (progress d) (message d) (startTime d)
                   (totalSize d) (downloadedSize d) (Some p) (finalSize d) (error d)
  | FFinalSize n => mkDownloadState (status d) (fileName d) (progress d) (message d) (startTime d)
                   (totalSize d) (downloadedSize d) (filePath d) (Some n) (error d)
  end.

(** [active_downloads = {}]: file id to entry. *)
Abbreviation Registry := (gmap string DownloadState).

(** The two thread targets of the program:
    [threading.Thread(target=download_file_background, args=(file_id, file_name, download_path))]
    and [threading.Thread(target=cleanup)] (a closure over [file_id]). *)
Inductive Task :=
| DownloadTask (file_id : string) (file_name : option string) (download_path : string)
| CleanupTask (file_id : string).

Definition task_file_id (t : Task) : string :=
  match t with
  | DownloadTask file_id _ _ => file_id
  | CleanupTask file_id => file_id
  end.

Inductive Level := INFO | WARNING | ERROR.

(** ** Threads

    A thread is a tree of atomic operations on the shared registry.
    [E] is what an exception carries, [A] what the thread returns.
    Operations that raise [KeyError] have a second continuation. *)
Inductive Thread (E A : Type) : Type :=
| Ret (a : A)
| Raise (e : E)
| Store (k : string) (v : DownloadState) (next : Thread E A)
| SetItem (k : string) (f : Field) (next : Thread E A) (exc : Thread E A)
| Contains (k : string) (next : bool -> Thread E A)
| GetItem (k : string) (next : DownloadState -> Thread E A) (exc : Thread E A)
| Delete (k : string) (next : Thread E A) (exc : Thread E A)
| Start (t : Task) (next : Thread E A)
| Sleep (secs : nat) (next : Thread E A)
| Log (lvl : Level) (msg : string) (next : Thread E A).

Arguments Ret {E A} a.
Arguments Raise {E A} e.
Arguments Store {E A} k v next.
Arguments SetItem {E A} k f next exc.
Arguments Contains {E A} k next.
Arguments GetItem {E A} k next exc.
Arguments Delete {E A} k next exc.
Arguments Start {E A} t next.
Arguments Sleep {E A} secs next.
Arguments Log {E A} lvl msg next.

Fixpoint bind {E A B} (m : Thread E A) (f : A -> Thread E B) : Thread E B :=
  match m with
  | Ret a => f a
  | Raise e => Raise e
  | Store k v next => Store k v (bind next f)
  | SetItem k fld next exc => SetItem k fld (bind next f) (bind exc f)
  | Contains k next => Contains k (fun b => bind (next b) f)
  | GetItem k next exc => GetItem k (fun d => bind (next d) f) (bind exc f)
  | Delete k next exc => Delete k (bind next f) (bind exc f)
  | Start t next => Start t (bind next f)
  | Sleep secs next => Sleep secs (bind next f)
  | Log lvl msg next => Log lvl msg (bind next f)
  end.

#[global] Instance thread_ret {E} : MRet (Thread E) := fun _ a => Ret a.
#[global] Instance thread_bind {E} : MBind (Thread E) := fun _ _ f m => bind m f.

(** [try: body except Exception as e: handler(e)]. *)
Fixpoint try_except {E E' A} (body : Thread E A) (handler : E -> Thread E' A) : Thread E' A :=
  match body with
  | Ret a => Ret a
  | Raise e => handler e
  | Store k v next => Store k v (try_except next handler)
  | SetItem k fld next exc => SetItem k fld (try_except next handler) (try_except exc handler)
  | Contains k next => Contains k (fun b => try_except (next b) handler)
  | GetItem k next exc => GetItem k (fun d => try_except (next d) handler) (try_except exc handler)
  | Delete k next exc => Delete k (try_except next handler) (try_except exc handler)
  | Start t next => Start t (try_except next handler)
  | Sleep secs next => Sleep secs (try_except next handler)
  | Log lvl msg next => Log lvl msg (try_except next handler)
  end.

(** An exception handler reads the function's local variables as they are
    when the exception is raised: [locals v body] attaches [v] to every
    exception leaving [body]. *)
Definition locals {V E A} (v : V) (body : Thread E A) : Thread (V * E) A :=
  try_except body (fun e => Raise (v, e)).

(** [repr(s)] of a [str]. A Python string is the string of its code
    points, those up to 255 being represented. The string is put between
    single quotes, or between double quotes when it holds a single quote
    and no double quote; the quote in use and the backslash are escaped,
    tab, newline and carriage return are written [\t], [\n], [\r], and the
    other characters that are not printable (the controls, 127, 128 to 160
    and 173) as [\x] and two hexadecimal digits. *)
Definition hex_digit (n : nat) : Ascii.ascii :=
  Ascii.ascii_of_nat (if (n <? 10)%nat then 48 + n else 87 + n).

Definition printable (c : Ascii.ascii) : bool :=
  let n := Ascii.nat_of_ascii c in
  ((32 <=? n) && (n <? 127) || (161 <=? n) && negb (n =? 173))%nat.

Definition repr_char (quote c : Ascii.ascii) : string :=
  let n := Ascii.nat_of_ascii c in
  if Ascii.eqb c quote || (n =? 92)%nat then String (Ascii.ascii_of_nat 92) (String c EmptyString)
  else if (n =? 9)%nat then "\t"
  else if (n =? 10)%nat then "\n"
  else if (n =? 13)%nat then "\r"
  else if printable c then String c EmptyString
  else "\x" +:+ String (hex_digit (n / 16)) (String (hex_digit (n mod 16)) EmptyString).

Fixpoint has_char (c : Ascii.ascii) (s : string) : bool :=
  match s with
  | EmptyString => false
  | String c' s => Ascii.eqb c c' || has_char c s
  end.

Fixpoint repr_chars (quote : Ascii.ascii) (s : string) : string :=
  match s with
  | EmptyString => EmptyString
  | String c s => repr_char quote c +:+ repr_chars quote s
  end.

Definition repr (s : string) : string :=
  let single := Ascii.ascii_of_nat 39 in
  let double := Ascii.ascii_of_nat 34 in
  let quote := if has_char single s && negb (has_char double s) then double else single in
  String quote (repr_chars quote s) +:+ String quote EmptyString.

(** The string of the characters with the given codes. *)
Definition of_codes (l : list nat) : string :=
  String.string_of_list_ascii (map Ascii.ascii_of_nat l).

(** [str(KeyError(k))] is [repr(k)]. *)
Definition key_error (k : string) : string := repr k.

Definition store (k : string) (v : DownloadState) : Thread string unit :=
  Store k v (Ret tt).
Definition set_item (k : string) (f : Field) : Thread string unit :=
  SetItem k f (Ret tt) (Raise (key_error k)).
Definition contains (k : string) : Thread string bool :=
  Contains k Ret.
Definition get_item (k : string) : Thread string DownloadState :=
  GetItem k Ret (Raise (key_error k)).
Definition delete_item (k : string) : Thread string unit :=
  Delete k (Ret tt) (Raise (key_error k)).
Definition start (t : Task) : Thread string unit :=
  Start t (Ret tt).
Definition sleep (secs : nat) : Thread string unit :=
  Sleep secs (Ret tt).
Definition log (lvl : Level) (msg : string) : Thread string unit :=
  Log lvl msg (Ret tt).

(** The outcome of a call outside the registry: the value, or the text of
    the exception it raised. *)
Definition call {A} (r : string + A) : Thread string A :=
  match r with
  | inl e => Raise e
  | inr a => Ret a
  end.

(** A call made for its effect only: [None] when it returns. *)
Definition call_ (r : option string) : Thread string unit :=
  match r with
  | Some e => Raise e
  | None => Ret tt
  end.

(** ** Running one thread alone *)

Inductive Event :=
| EvStore (k : string) (v : DownloadState)
| EvSetItem (k : string) (f : Field)
| EvDelete (k : string)
| EvStart (t : Task)
| EvSleep (secs : nat)
| EvLog (lvl : Level) (msg : string).

Record Outcome (E A : Type) := mkOutcome {
  registry : Registry;
  trace : list Event;
  result : E + A
}.
Arguments mkOutcome {E A}.
Arguments registry {E A}.
Arguments trace {E A}.
Arguments result {E A}.

Definition emit {E A} (ev : Event) (o : Outcome E A) : Outcome E A :=
  mkOutcome (registry o) (ev :: trace o) (result o).

Fixpoint run {E A} (t : Thread E A) (reg : Registry) : Outcome E A :=
  match t with
  | Ret a => mkOutcome reg [] (inr a)
  | Raise e => mkOutcome reg [] (inl e)
  | Store k v next => emit (EvStore k v) (run next (<[k:=v]> reg))
  | SetItem k f next exc =>
      match reg !! k with
      | Some d => emit (EvSetItem k f) (run next (<[k:=set_field f d]> reg))
      | None => run exc reg
      end
  | Contains k next => run (next (bool_decide (is_Some (reg !! k)))) reg
  | GetItem k next exc =>
      match reg !! k with
      | Some d => run (next d) reg
      | None => run exc reg
      end
  | Delete k next exc =>
      match reg !! k with
      | Some _ => emit (EvDelete k) (run next (delete k reg))
      | None => run exc reg
      end
  | Start t next => emit (EvStart t) (run next reg)
  | Sleep secs next => emit (EvSleep secs) (run next reg)
  | Log lvl msg next => emit (EvLog lvl msg) (run next reg)
  end.

(** ** Python arithmetic of the progress percentage

    [int((downloaded_size / total_size) * 80)] divides two [int]s into a
    [float] (binary64, correctly rounded, ties to even), multiplies two
    floats (rounded again) and truncates.  A float is represented by the
    rational it denotes.  The exponent range is bounded below as in
    binary64 (subnormal numbers); the upper bound [2^1024] is out of reach
    for quotients of byte counts and is not represented. *)

(** [floor (log2 x)] for [0 < x]. *)
Definition Qlog2 (x : Q) : Z :=
  let k := Z.log2 (Qnum x) - Z.log2 (Zpos (Qden x)) in
  if Qle_bool (2 ^ k) x then k else k - 1.

(** The exponent of the unit in the last place: 53 significant bits, and
    no exponent below [-1074]. *)
Definition ulp_exponent (x : Q) : Z := Z.max (Qlog2 x - 52) (-1074).

Definition round_half_even (x : Q) : Z :=
  let f := Qfloor x in
  match (x - inject_Z f ?= 1 # 2)%Q with
  | Lt => f
  | Gt => f + 1
  | Eq => if Z.even f then f else f + 1
  end.

(** Rounding onto the multiples of [2^q]. *)
Definition round_to_grid (q : Z) (x : Q) : Q :=
  (inject_Z (round_half_even (x / 2 ^ q)) * 2 ^ q)%Q.

Definition nearest_float (x : Q) : Q := round_to_grid (ulp_exponent x) x.

Definition binary64 (x : Q) : Q :=
  match (x ?= 0)%Q with
  | Lt => (- nearest_float (- x))%Q
  | _ => nearest_float x
  end.

(** [a / b] on [int]s *)
Definition true_div (a b : Z) : Q := binary64 (inject_Z a / inject_Z b).
(** [x * y] on [float]s *)
Definition float_mul (x y : Q) : Q := binary64 (x * y).
(** [int(x)]: truncation towards zero *)
Definition int_of_float (x : Q) : Z :=
  match (x ?= 0)%Q with
  | Lt => - Qfloor (- x)
  | _ => Qfloor x
  end.

(** [min(90, 10 + int((downloaded_size / total_size) * 80))] (line 155) *)
Definition progress_percent (downloaded_size total_size : Z) : Z :=
  Z.min 90 (10 + int_of_float (float_mul (true_div downloaded_size total_size) 80)).

(** The same percentage in exact integer arithmetic, as a specification
    would read the formula. *)
Definition progress_percent_exact (downloaded_size total_size : Z) : Z :=
  Z.min 90 (10 + downloaded_size * 80 / total_size).

(** [int((a / b) * 80)] as a function of the exact quotient [a / b]. *)
Definition eighty (x : Q) : Z := int_of_float (float_mul (binary64 x) 80).

(** For a quotient whose exact percentage is [k]: the two roundings do not
    fall below [k], and do not reach [k + 1] when the divisor is at most
    [bound]. *)
Definition agrees_upto (bound k : Z) : bool :=
  (k <=? eighty (inject_Z k / 80)) &&
  (eighty (inject_Z ((k + 1) * bound - 1) / inject_Z (80 * bound)) <=? k).

(** The rational denoted by a float of the standard library's IEEE 754
    specification, against which [binary64] is tested below. *)
Definition Q_of_spec_float (f : SpecFloat.spec_float) : option Q :=
  match f with
  | SpecFloat.S754_zero _ => Some 0%Q
  | SpecFloat.S754_finite s m e =>
      Some ((if s then -1 else 1) * inject_Z (Zpos m) * 2 ^ e)%Q
  | _ => None
  end.

Definition spec_float_of_int (n : Z) : SpecFloat.spec_float :=
  SpecFloat.binary_normalize 53 1024 n 0 false.

Definition spec_true_div (a b : Z) : option Q :=
  Q_of_spec_float (SpecFloat.SFdiv 53 1024 (spec_float_of_int a) (spec_float_of_int b)).

Definition spec_percent (a b : Z) : option Q :=
  Q_of_spec_float
    (SpecFloat.SFmul 53 1024
       (SpecFloat.SFdiv 53 1024 (spec_float_of_int a) (spec_float_of_int b))
       (spec_float_of_int 80)).

Definition Qeq_opt (x : option Q) (y : Q) : bool :=
  match x with
  | Some x => Qeq_bool x y
  | None => false
  end.

(** ** The world outside the registry *)

(** The dict returned by [webshare_client.initiate_download(file_id)];
    a key that is absent is [None]. *)
Record DownloadInfo := mkDownloadInfo {
  downloadUrl : option string;
  info_fileName : option string;
  fileSize : option Z
}.

(** What happens inside the [with open(...)] block, item by item: a chunk
    that [response.iter_content(chunk_size=8192)] yields, with the outcome
    of [f.write(chunk)], or an exception raised there otherwise, [Broken]:
    by the transport while iterating, or, as the last item, by the close
    of the file when the block is left (a buffered write that cannot
    reach the disk). *)
Inductive StreamItem :=
| Chunk (data : list byte) (write : option string)
| Broken (e : string).

(** The response of [webshare_client.session.get(download_url, stream=True)]. *)
Record HttpResponse := mkHttpResponse {
  raise_for_status : option string;
  (** [int(response.headers['content-length'])], when the header is there *)
  content_length : option (string + Z);
  iter_content : list StreamItem
}.

(** The outcomes of the calls one download task makes. A call that raises
    gives the text of its exception. *)
Record Env := mkEnv {
  time_time : Z;
  initiate_download : string -> string + DownloadInfo;
  makedirs : string -> option string;
  session_get : string -> string + HttpResponse;
  open_wb : string -> option string;
  chmod : string -> option string;
  requests_put : string -> string + Z
}.

(** The settings read from [os.environ] when the module is loaded, and the
    formatting helper of the client. *)
Record Config := mkConfig {
  MOVIES_PATH : string;
  SERIES_PATH : string;
  PLEX_URL : string;
  PLEX_TOKEN : string;
  format_file_size : Z -> string
}.

(** [str(x)] for a value that may be [None] *)
Definition str (x : option string) : string := default "None" x.

(** [not x] for a value that may be [None] or a string *)
Definition falsy (x : option string) : bool :=
  match x with
  | None | Some EmptyString => true
  | Some _ => false
  end.

Fixpoint endswith_slash (s : string) : bool :=
  match s with
  | EmptyString => false
  | String c EmptyString => Ascii.eqb c (Ascii.ascii_of_nat 47)
  | String _ rest => endswith_slash rest
  end.

(** [os.path.join(path, b)] (posixpath) *)
Definition os_path_join (path b : string) : string :=
  if String.prefix "/" b then b
  else if String.eqb path EmptyString || endswith_slash path then path +:+ b
  else path +:+ "/" +:+ b.

(** [d[k]] on a dict where the key may be absent *)
Definition subscript {A} (k : string) (v : option A) : Thread string A :=
  match v with
  | Some a => Ret a
  | None => Raise (key_error k)
  end.

(** ** The program *)

Section Program.
Context (cfg : Config).

(** The dict of line 108. *)
Definition starting_entry (file_name : option string) (now : Z) : DownloadState :=
  {| status := Downloading; fileName := file_name; progress := 0;
     message := "Starting download..."; startTime := Some now;
     totalSize := None; downloadedSize := None;
     filePath := None; finalSize := None; error := None |}.

(** The dict of line 200. *)
Definition error_entry (file_name : option string) (e : string) : DownloadState :=
  {| status := Error; fileName := file_name; progress := 0;
     message := "Download failed: " +:+ e; startTime := None;
     totalSize := None; downloadedSize := None;
     filePath := None; finalSize := None; error := Some e |}.

(** The body of the [for chunk in ...] loop (lines 149-158); returns the
    new [downloaded_size]. *)
Definition receive_chunk (file_id : string) (total_size downloaded_size : Z)
    (data : list byte) (write : option string) : Thread string Z :=
  match data with
  | [] => mret downloaded_size
  | _ =>
      call_ write;;
      let downloaded_size := downloaded_size + Z.of_nat (length data) in
      (if bool_decide (0 < total_size) then
         let progress := progress_percent downloaded_size total_size in
         set_item file_id (FProgress progress);;
         set_item file_id (FMessage ("Downloading... " +:+ pretty (progress - 10) +:+ "%"));;
         set_item file_id (FDownloadedSize downloaded_size)
       else mret tt);;
      mret downloaded_size
  end.

(** The [for] loop of line 148. *)
Fixpoint stream_loop (file_id : string) (total_size : Z) (items : list StreamItem)
    (downloaded_size : Z) : Thread string Z :=
  match items with
  | [] => mret downloaded_size
  | Broken e :: _ => Raise e
  | Chunk data write :: rest =>
      downloaded_size ← receive_chunk file_id total_size downloaded_size data write;
      stream_loop file_id total_size rest downloaded_size
  end.

(** Lines 160-165. *)
Definition set_permissions (env : Env) (file_path file_name : string) : Thread string unit :=
  try_except
    (call_ (chmod env file_path);;
     log INFO ("Set file permissions to 644 for " +:+ file_name))
    (fun e => log WARNING ("Could not set file permissions for " +:+ file_name +:+ ": " +:+ e)).

(** Lines 176-188. *)
Definition refresh_plex (env : Env) : Thread string unit :=
  if negb (String.eqb (PLEX_TOKEN cfg) EmptyString) then
    try_except
      (let refresh_url :=
         PLEX_URL cfg +:+ "/library/sections/all/refresh?X-Plex-Token=" +:+ PLEX_TOKEN cfg in
       status_code ← call (requests_put env refresh_url);
       if status_code =? 200
       then log INFO "Successfully triggered Plex library refresh"
       else log WARNING ("Plex API returned status code: " +:+ pretty status_code))
      (fun e => log ERROR ("Error triggering Plex library refresh: " +:+ e))
  else log WARNING "PLEX_TOKEN not configured, skipping library refresh".

(** Lines 107-122: up to the point where [file_name] is settled. *)
Definition resolve (env : Env) (file_id : string) (file_name : option string)
    : Thread string (string * Z * string) :=
  store file_id (starting_entry file_name (time_time env));;
  download_info ← call (initiate_download env file_id);
  download_url ← subscript "downloadUrl" (downloadUrl download_info);
  let expected_size := default 0 (fileSize download_info) in
  file_name ← (if falsy file_name
               then subscript "fileName" (info_fileName download_info)
               else mret (str file_name));
  mret (download_url, expected_size, file_name).

(** Lines 124-158: the transfer; returns [(file_path, downloaded_size)].
    The [with] block is left, and the file closed, when the items of the
    response are used up.
    In [int(response.headers.get('content-length', expected_size or 0))]
    the default [expected_size or 0] is [expected_size]: a missing
    [fileSize] is 0 already. *)
Definition transfer (env : Env) (file_id file_name download_path download_url : string)
    (expected_size : Z) : Thread string (string * Z) :=
  call_ (makedirs env download_path);;
  let file_path := os_path_join download_path file_name in
  set_item file_id (FMessage "Connecting to server...");;
  set_item file_id (FProgress 5);;
  log INFO ("Starting download of " +:+ file_name +:+ "...");;
  response ← call (session_get env download_url);
  call_ (raise_for_status response);;
  total_size ← match content_length response with
               | Some n => call n
               | None => mret expected_size
               end;
  let downloaded_size := 0 in
  set_item file_id (FMessage "Downloading... 0%");;
  set_item file_id (FProgress 10);;
  set_item file_id (FTotalSize total_size);;
  call_ (open_wb env file_path);;
  downloaded_size ← stream_loop file_id total_size (iter_content response) downloaded_size;
  mret (file_path, downloaded_size).

(** Lines 160-196: what follows a transfer that raised nothing. *)
Definition finish (env : Env) (file_id file_name file_path : string) (downloaded_size : Z)
    : Thread string unit :=
  set_permissions env file_path file_name;;
  set_item file_id (FStatus Completed);;
  set_item file_id (FProgress 100);;
  set_item file_id (FMessage "Download completed!");;
  set_item file_id (FFilePath file_path);;
  set_item file_id (FFinalSize downloaded_size);;
  log INFO ("Download completed: " +:+ file_name
            +:+ " (" +:+ format_file_size cfg downloaded_size +:+ ")");;
  refresh_plex env;;
  start (CleanupTask file_id).

(** The [try] block of [download_file_background] (lines 107-196). An
    exception leaves it with the value [file_name] has at that point,
    which the [except] clause reads: line 122 may have rebound it. *)
Definition try_block (env : Env) (file_id : string) (file_name : option string)
    (download_path : string) : Thread (option string * string) unit :=
  '(download_url, expected_size, file_name) ← locals file_name (resolve env file_id file_name);
  locals (Some file_name)
    ('(file_path, downloaded_size) ←
        transfer env file_id file_name download_path download_url expected_size;
     finish env file_id file_name file_path downloaded_size).

(** The [except] clause (lines 198-206). *)
Definition except_clause (file_id : string) (file_name : option string) (e : string)
    : Thread string unit :=
  log ERROR ("Background download failed: " +:+ e);;
  store file_id (error_entry file_name e).

Definition download_file_background (env : Env) (file_id : string)
    (file_name : option string) (download_path : string) : Thread string unit :=
  try_except (try_block env file_id file_name download_path)
    (fun '(file_name, e) => except_clause file_id file_name e).

(** The closure [cleanup] of lines 191-194. *)
Definition cleanup (file_id : string) : Thread string unit :=
  sleep 30;;
  present ← contains file_id;
  if (present : bool) then delete_item file_id else mret tt.

(** The JSON body of a [/api/download] request whose values are strings;
    a key that is absent is [None]. *)
Record RequestData := mkRequestData {
  req_fileId : option string;
  req_fileName : option string;
  req_contentType : option string
}.

Inductive Response :=
| Started (msg : string) (fileId : string)                        (* 200 *)
| AlreadyInProgress (msg : string) (st : Status) (pr : Z)         (* 200 *)
| BadRequest (err : string)                                       (* 400 *)
| ServerError (err : string).                                     (* 500 *)

(** The route [/api/download] (lines 209-253). [request_json] is the
    outcome of [request.get_json()]. *)
Definition download (request_json : string + RequestData) : Thread string Response :=
  try_except
    (data ← call request_json;
     let file_id := req_fileId data in
     let file_name := req_fileName data in
     let content_type := default "movie" (req_contentType data) in
     if falsy file_id then mret (BadRequest "File ID is required")
     else
       let file_id := str file_id in
       let download_path :=
         if String.eqb content_type "series" then SERIES_PATH cfg else MOVIES_PATH cfg in
       log INFO ("Downloading " +:+ str file_name +:+ " as " +:+ content_type
                 +:+ " to " +:+ download_path);;
       present ← contains file_id;
       if (present : bool) then
         s ← get_item file_id;
         p ← get_item file_id;
         mret (AlreadyInProgress ("Download already in progress: " +:+ str file_name)
                 (status s) (progress p))
       else
         start (DownloadTask file_id file_name download_path);;
         mret (Started ("Download started: " +:+ str file_name) file_id))
    (fun e => log ERROR ("Download error: " +:+ e);; mret (ServerError e)).

End Program.

(** ** The other routes *)

Inductive ProgressResponse :=
| ProgressFound (download : DownloadState)      (* 200 *)
| ProgressNotFound (err : string)               (* 404 *)
| ProgressError (err : string).                 (* 500 *)

(** The route [/api/download/progress/<file_id>] (lines 256-272). The
    entry is read in one operation, after the membership test. *)
Definition download_progress (file_id : string) : Thread string ProgressResponse :=
  try_except
    (present ← contains file_id;
     if (present : bool) then
       d ← get_item file_id;
       mret (ProgressFound d)
     else mret (ProgressNotFound "Download not found or completed"))
    (fun e => log ERROR ("Progress check error: " +:+ e);; mret (ProgressError e)).

(** [WEBSHARE_USERNAME] and [WEBSHARE_PASSWORD] (lines 25-26); a variable
    that is not set is [None]. *)
Record Credentials := mkCredentials {
  WEBSHARE_USERNAME : option string;
  WEBSHARE_PASSWORD : option string
}.

(** [bool(WEBSHARE_USERNAME and WEBSHARE_PASSWORD)] *)
Definition credentials_configured (c : Credentials) : bool :=
  negb (falsy (WEBSHARE_USERNAME c)) && negb (falsy (WEBSHARE_PASSWORD c)).

(** The values of [login_status]: ['success'], ['error'], ['not_configured']. *)
Inductive LoginStatus := LoginSucceeded | LoginFailed | NotConfigured.

(** Lines 35-51, executed when the module is loaded; gives
    [(login_status, login_message)]. [client_login] is the outcome of
    [webshare_client.login(username, password)]: [None] when it returns,
    the text of the exception otherwise. *)
Definition auto_login (c : Credentials) (client_login : string -> string -> option string)
    : Thread string (LoginStatus * string) :=
  if credentials_configured c then
    try_except
      (call_ (client_login (str (WEBSHARE_USERNAME c)) (str (WEBSHARE_PASSWORD c)));;
       log INFO "Successfully auto-logged in to Webshare.cz";;
       mret (LoginSucceeded, "Successfully logged in as " +:+ str (WEBSHARE_USERNAME c)))
      (fun e =>
         log ERROR ("Auto-login failed: " +:+ e);;
         mret (LoginFailed, "Login failed: " +:+ e))
  else mret (NotConfigured, "Webshare.cz credentials not configured").

Inductive LoginResponse :=
| LoginOk (msg : string)                        (* 200 *)
| LoginRefused (err : string).                  (* 400 *)

(** The route [/api/login] (lines 59-74). [logged_in] is the value of
    [webshare_client.logged_in]. *)
Definition login (c : Credentials) (logged_in : bool)
    (client_login : string -> string -> option string) : Thread string LoginResponse :=
  try_except
    (if logged_in then mret (LoginOk "Already logged in")
     else if credentials_configured c then
       call_ (client_login (str (WEBSHARE_USERNAME c)) (str (WEBSHARE_PASSWORD c)));;
       mret (LoginOk "Logged in successfully")
     else mret (LoginRefused "No credentials configured"))
    (fun e => log ERROR ("Login error: " +:+ e);; mret (LoginRefused e)).

(** The JSON object of [/api/status] (lines 77-85). *)
Record StatusResponse := mkStatusResponse {
  status_logged_in : bool;
  status_credentials_configured : bool;
  status_login_status : LoginStatus;
  status_login_message : string;
  status_username : option string
}.

(** The route [/api/status]; [login_status] and [login_message] are the
    module's globals, assigned by the auto-login only. *)
Definition api_status (c : Credentials) (logged_in : bool) (login_status : LoginStatus)
    (login_message : string) : StatusResponse :=
  {| status_logged_in := logged_in;
     status_credentials_configured := credentials_configured c;
     status_login_status := login_status;
     status_login_message := login_message;
     status_username := if falsy (WEBSHARE_USERNAME c) then None else WEBSHARE_USERNAME c |}.

(** A JSON value as [request.get_json()] gives it: [None], a [bool], an
    [int], a [float], a [str], a [list] or a [dict]. *)
Set Warnings "-register-all".
Inductive Json :=
| JNull
| JBool (b : bool)
| JInt (n : Z)
| JFloat (x : SpecFloat.spec_float)
| JString (s : string)
| JArray (items : list Json)
| JObject (members : list (string * Json)).
Set Warnings "+register-all".

(** [not v], for the value of [data.get(key)], which is [None] when the
    key is absent. *)
Definition json_falsy (v : option Json) : bool :=
  match v with
  | None | Some JNull => true
  | Some (JBool b) => negb b
  | Some (JInt n) => n =? 0
  | Some (JFloat (SpecFloat.S754_zero _)) => true
  | Some (JFloat _) => false
  | Some (JString EmptyString) => true
  | Some (JString _) => false
  | Some (JArray []) => true
  | Some (JArray _) => false
  | Some (JObject []) => true
  | Some (JObject _) => false
  end.

Inductive SearchResponse (R : Type) :=
| SearchResults (results : R)                   (* 200 *)
| SearchBadRequest (err : string)               (* 400 *)
| SearchError (err : string).                   (* 500 *)
Arguments SearchResults {R} results.
Arguments SearchBadRequest {R} err.
Arguments SearchError {R} err.

(** The route [/api/search] (lines 88-102). [request_json] is the outcome
    of [request.get_json()] followed by [data.get('query')];
    [client_search] that of [webshare_client.search(query)]. *)
Definition search {R} (request_json : string + option Json)
    (client_search : option Json -> string + R) : Thread string (SearchResponse R) :=
  try_except
    (query ← call request_json;
     if json_falsy query then mret (SearchBadRequest "Query parameter is required")
     else
       results ← call (client_search query);
       mret (SearchResults results))
    (fun e => log ERROR ("Search error: " +:+ e);; mret (SearchError e)).

(** [os.stat(filepath)]: the two fields the listing reads; [st_mtime] is a
    float, represented by the rational it denotes. *)
Record Stat := mkStat {
  st_size : Z;
  st_mtime : Q
}.

(** The file system as [list_downloads] sees it. [os.path.exists] and
    [os.path.isfile] do not raise; [os.listdir] and [os.stat] may. *)
Record FileSystem := mkFileSystem {
  path_exists : string -> bool;
  listdir : string -> string + list string;
  isfile : string -> bool;
  os_stat : string -> string + Stat
}.

(** ['type'], ['movie'] or ['series'], which also fixes ['typeLabel']. *)
Inductive FileType := Movie | Series.

Record FileEntry := mkFileEntry {
  entry_name : string;
  entry_size : Z;
  entry_sizeFormatted : string;
  entry_modified : Q;
  entry_type : FileType
}.

Inductive ListResponse :=
| Listing (files : list FileEntry)              (* 200 *)
| ListError (err : string).                     (* 500 *)

(** [files.sort(key=lambda x: x['modified'], reverse=True)]. Python's sort
    is stable, also with [reverse=True], and that fixes its result:
    descending in ['modified'], entries of equal time in the order they
    had. An insertion sort gives the same list. *)
Fixpoint insert_newest_first (x : FileEntry) (l : list FileEntry) : list FileEntry :=
  match l with
  | [] => [x]
  | y :: l' =>
      if Qle_bool (entry_modified y) (entry_modified x) then x :: l
      else y :: insert_newest_first x l'
  end.

Definition sort_newest_first (l : list FileEntry) : list FileEntry :=
  foldr insert_newest_first [] l.

Section Routes.
Context (cfg : Config).

(** The dict appended at lines 286-293 and 301-308. *)
Definition file_entry (filename : string) (st : Stat) (ty : FileType) : FileEntry :=
  {| entry_name := filename; entry_size := st_size st;
     entry_sizeFormatted := format_file_size cfg (st_size st);
     entry_modified := st_mtime st; entry_type := ty |}.

(** The loop of lines 282-293 (297-308) over the names of one directory. *)
Fixpoint list_files (fs : FileSystem) (dir : string) (ty : FileType) (names : list string)
    (files : list FileEntry) : Thread string (list FileEntry) :=
  match names with
  | [] => mret files
  | filename :: names =>
      let filepath := os_path_join dir filename in
      if isfile fs filepath then
        st ← call (os_stat fs filepath);
        list_files fs dir ty names (files ++ [file_entry filename st ty])
      else list_files fs dir ty names files
  end.

(** Lines 281-293 (296-308). *)
Definition list_directory (fs : FileSystem) (dir : string) (ty : FileType)
    (files : list FileEntry) : Thread string (list FileEntry) :=
  if path_exists fs dir then
    names ← call (listdir fs dir);
    list_files fs dir ty names files
  else mret files.

(** The route [/api/downloads] (lines 275-317). *)
Definition list_downloads (fs : FileSystem) : Thread string ListResponse :=
  try_except
    (files ← list_directory fs (MOVIES_PATH cfg) Movie [];
     files ← list_directory fs (SERIES_PATH cfg) Series files;
     mret (Listing (sort_newest_first files)))
    (fun e => log ERROR ("List downloads error: " +:+ e);; mret (ListError e)).
End Routes.

(** ** Threads interleaved by a scheduler

    One step of a thread is one atomic operation on the registry. *)

Inductive Step (E A : Type) :=
| Finished (r : E + A)
| Continue (reg : Registry) (started : option Task) (delay : nat) (next : Thread E A).
Arguments Finished {E A} r.
Arguments Continue {E A} reg started delay next.

Definition thread_step {E A} (t : Thread E A) (reg : Registry) : Step E A :=
  match t with
  | Ret a => Finished (inr a)
  | Raise e => Finished (inl e)
  | Store k v next => Continue (<[k:=v]> reg) None 0 next
  | SetItem k f next exc =>
      match reg !! k with
      | Some d => Continue (<[k:=set_field f d]> reg) None 0 next
      | None => Continue reg None 0 exc
      end
  | Contains k next => Continue reg None 0 (next (bool_decide (is_Some (reg !! k))))
  | GetItem k next exc =>
      match reg !! k with
      | Some d => Continue reg None 0 (next d)
      | None => Continue reg None 0 exc
      end
  | Delete k next exc =>
      match reg !! k with
      | Some _ => Continue (delete k reg) None 0 next
      | None => Continue reg None 0 exc
      end
  | Start t next => Continue reg (Some t) 0 next
  | Sleep secs next => Continue reg None secs next
  | Log _ _ next => Continue reg None 0 next
  end.

(** The thread scheduled alone, for at most [n] operations: the registry
    and the result it ends with, if it ends within them. *)
Fixpoint steps {E A} (n : nat) (t : Thread E A) (reg : Registry)
    : option (Registry * (E + A)) :=
  match thread_step t reg with
  | Finished r => Some (reg, r)
  | Continue reg' _ _ next =>
      match n with
      | O => None
      | S n => steps n next reg'
      end
  end.

(** The code a started thread runs; [env] gives the outcomes of the calls
    a download task will make. *)
Definition program (cfg : Config) (env : Env) (t : Task) : Thread string unit :=
  match t with
  | DownloadTask file_id file_name download_path =>
      download_file_background cfg env file_id file_name download_path
  | CleanupTask file_id => cleanup file_id
  end.

(** The process: the registry, a clock in seconds, the request handlers in
    flight, the background threads with the time before which they sleep,
    and the responses sent so far. *)
Record System := mkSystem {
  active_downloads : Registry;
  clock : nat;
  handlers : list (Thread string Response);
  workers : list (nat * Thread string unit);
  responses : list (string + Response)
}.

Definition boot : System := mkSystem ∅ 0 [] [] [].

Inductive Label :=
| Request (request_json : string + RequestData)   (* a POST to /api/download arrives *)
| Handle (i : nat) (env : Env)                    (* handler [i] performs one operation *)
| Work (i : nat) (env : Env)                      (* background thread [i] performs one operation *)
| Tick.                                           (* a second passes *)

Definition spawn (cfg : Config) (env : Env) (now : nat) (started : option Task)
    : list (nat * Thread string unit) :=
  match started with
  | Some t => [(now, program cfg env t)]
  | None => []
  end.

Definition sys_step (cfg : Config) (l : Label) (s : System) : option System :=
  match l with
  | Request request_json =>
      Some (mkSystem (active_downloads s) (clock s)
              (handlers s ++ [download cfg request_json]) (workers s) (responses s))
  | Tick =>
      Some (mkSystem (active_downloads s) (S (clock s)) (handlers s) (workers s) (responses s))
  | Handle i env =>
      match handlers s !! i with
      | None => None
      | Some t =>
          match thread_step t (active_downloads s) with
          | Finished r =>
              Some (mkSystem (active_downloads s) (clock s)
                      (delete i (handlers s)) (workers s) (responses s ++ [r]))
          | Continue reg started _ next =>
              Some (mkSystem reg (clock s) (<[i:=next]> (handlers s))
                      (workers s ++ spawn cfg env (clock s) started) (responses s))
          end
      end
  | Work i env =>
      match workers s !! i with
      | None => None
      | Some (wake, t) =>
          if decide (wake ≤ clock s)%nat then
            match thread_step t (active_downloads s) with
            | Finished _ =>
                Some (mkSystem (active_downloads s) (clock s)
                        (handlers s) (delete i (workers s)) (responses s))
            | Continue reg started delay next =>
                Some (mkSystem reg (clock s) (handlers s)
                        (<[i:=((clock s + delay)%nat, next)]> (workers s)
                           ++ spawn cfg env (clock s) started)
                        (responses s))
            end
          else None
      end
  end.

Fixpoint exec (cfg : Config) (ls : list Label) (s : System) : option System :=
  match ls with
  | [] => Some s
  | l :: ls =>
      match sys_step cfg l s with
      | Some s' => exec cfg ls s'
      | None => None
      end
  end.

(** ** Observations on a trace *)

(** The value an event writes to the ['progress'] key of [file_id]'s entry. *)
Definition progress_written (file_id : string) (ev : Event) : option Z :=
  match ev with
  | EvStore k v => if decide (k = file_id) then Some (progress v) else None
  | EvSetItem k (FProgress p) => if decide (k = file_id) then Some p else None
  | _ => None
  end.

Definition progress_writes (file_id : string) (tr : list Event) : list Z :=
  omap (progress_written file_id) tr.

Definition started_task (ev : Event) : option Task :=
  match ev with
  | EvStart t => Some t
  | _ => None
  end.

(** The threads a trace starts, in order. *)
Definition started (tr : list Event) : list Task := omap started_task tr.

(** [lo <= l_0 <= l_1 <= ...] *)
Fixpoint rising (lo : Z) (l : list Z) : Prop :=
  match l with
  | [] => True
  | x :: l => lo <= x /\ rising x l
  end.

(** The entry after lines 168-172. *)
Definition completed_entry (d : DownloadState) (file_path : string) (downloaded_size : Z)
    : DownloadState :=
  set_field (FFinalSize downloaded_size)
    (set_field (FFilePath file_path)
       (set_field (FMessage "Download completed!")
          (set_field (FProgress 100)
             (set_field (FStatus Completed) d)))).

Definition prepend {E A} (tr : list Event) (o : Outcome E A) : Outcome E A :=
  mkOutcome (registry o) (tr ++ trace o) (result o).

(** What the steps of a download task between its first and its last
    write maintain: the entry stays, no thread is started, and the
    progress values written rise from [lo] without passing [hi]. *)
Definition steady {E A} (file_id : string) (lo hi : Z) (o : Outcome E A) : Prop :=
  is_Some (registry o !! file_id) /\
  started (trace o) = [] /\
  rising lo (progress_writes file_id (trace o)) /\
  Forall (fun p => p <= hi) (progress_writes file_id (trace o)).




(** The event is no write to the registry. *)
Definition no_write (ev : Event) : Prop :=
  match ev with
  | EvStore _ _ | EvSetItem _ _ | EvDelete _ => False
  | _ => True
  end.

(** ** Observations on a stream *)

Definition chunk_length (item : StreamItem) : Z :=
  match item with
  | Chunk data _ => Z.of_nat (length data)
  | Broken _ => 0
  end.

(** The bytes of all the chunks of a stream. *)
Definition bytes_received (items : list StreamItem) : Z :=
  foldr (fun item n => chunk_length item + n) 0 items.


(** The item is a chunk that arrives and, unless it is empty, is written
    to the file. *)
Definition delivered (item : StreamItem) : bool :=
  match item with
  | Chunk [] _ => true
  | Chunk _ None => true
  | _ => false
  end.

(** An empty chunk, which line 149 skips. *)
Definition keep_alive (item : StreamItem) : bool :=
  match item with
  | Chunk [] _ => true
  | _ => false
  end.

(** The exception an item raises: of the transport, or of [f.write]. *)
Definition failure (item : StreamItem) : option string :=
  match item with
  | Broken e => Some e
  | Chunk (_ :: _) (Some e) => Some e
  | _ => None
  end.

(** The entry after lines 131-145. *)
Definition connected_entry (d : DownloadState) (total_size : Z) : DownloadState :=
  set_field (FTotalSize total_size)
    (set_field (FProgress 10)
       (set_field (FMessage "Downloading... 0%")
          (set_field (FProgress 5)
             (set_field (FMessage "Connecting to server...") d)))).

(** The entry after lines 155-158. *)
Definition streaming_entry (d : DownloadState) (total_size downloaded_size : Z) : DownloadState :=
  let progress := progress_percent downloaded_size total_size in
  set_field (FDownloadedSize downloaded_size)
    (set_field (FMessage ("Downloading... " +:+ pretty (progress - 10) +:+ "%"))
       (set_field (FProgress progress) d)).

(** ** Observations on a directory *)

(** The entry [a] is at least as recent as [b]. *)
Definition newer_or_same (a b : FileEntry) : Prop :=
  (entry_modified b <= entry_modified a)%Q.

(** The entry of [filename] in [dir]: a regular file whose [os.stat] returns. *)
Definition entry_of (cfg : Config) (fs : FileSystem) (dir : string) (ty : FileType)
    (filename : string) : option FileEntry :=
  if isfile fs (os_path_join dir filename) then
    match os_stat fs (os_path_join dir filename) with
    | inr st => Some (file_entry cfg filename st ty)
    | inl _ => None
    end
  else None.

(** The exception [os.stat] raises on [filename], if it is a regular file. *)
Definition stat_failure (fs : FileSystem) (dir filename : string) : option string :=
  if isfile fs (os_path_join dir filename) then
    match os_stat fs (os_path_join dir filename) with
    | inl e => Some e
    | inr _ => None
    end
  else None.

(** The entries of a directory, in the order of [os.listdir]. *)
Definition entries_of (cfg : Config) (fs : FileSystem) (dir : string) (ty : FileType)
    : list FileEntry :=
  if path_exists fs dir then
    match listdir fs dir with
    | inr names => omap (entry_of cfg fs dir ty) names
    | inl _ => []
    end
  else [].

(** The first exception the scan of a directory meets. *)
Definition scan_failure (fs : FileSystem) (dir : string) : option string :=
  if path_exists fs dir then
    match listdir fs dir with
    | inr names => head (omap (stat_failure fs dir) names)
    | inl e => Some e
    end
  else None.

(** ** A thread among others *)

(** Every registry operation of the thread is on the entry of [file_id]. *)
Fixpoint own {E A} (file_id : string) (t : Thread E A) : Prop :=
  match t with
  | Ret _ | Raise _ => True
  | Store k _ next => k = file_id /\ own file_id next
  | SetItem k _ next exc => k = file_id /\ own file_id next /\ own file_id exc
  | Contains k next => k = file_id /\ forall b, own file_id (next b)
  | GetItem k next exc => k = file_id /\ (forall d, own file_id (next d)) /\ own file_id exc
  | Delete k next exc => k = file_id /\ own file_id next /\ own file_id exc
  | Start _ next => own file_id next
  | Sleep _ next => own file_id next
  | Log _ _ next => own file_id next
  end.

(** The thread run while other threads run too: before its [n]-th
    operation the registry has become [others n reg]. *)
Fixpoint run_among {E A} (others : nat -> Registry -> Registry) (n : nat)
    (t : Thread E A) (reg : Registry) : Outcome E A :=
  let reg := others n reg in
  match t with
  | Ret a => mkOutcome reg [] (inr a)
  | Raise e => mkOutcome reg [] (inl e)
  | Store k v next => emit (EvStore k v) (run_among others (S n) next (<[k:=v]> reg))
  | SetItem k f next exc =>
      match reg !! k with
      | Some d => emit (EvSetItem k f) (run_among others (S n) next (<[k:=set_field f d]> reg))
      | None => run_among others (S n) exc reg
      end
  | Contains k next => run_among others (S n) (next (bool_decide (is_Some (reg !! k)))) reg
  | GetItem k next exc =>
      match reg !! k with
      | Some d => run_among others (S n) (next d) reg
      | None => run_among others (S n) exc reg
      end
  | Delete k next exc =>
      match reg !! k with
      | Some _ => emit (EvDelete k) (run_among others (S n) next (delete k reg))
      | None => run_among others (S n) exc reg
      end
  | Start t next => emit (EvStart t) (run_among others (S n) next reg)
  | Sleep secs next => emit (EvSleep secs) (run_among others (S n) next reg)
  | Log lvl msg next => emit (EvLog lvl msg) (run_among others (S n) next reg)
  end.

(** ** Threads that leave an entry alone *)

(** As long as the registry holds an entry for [file_id], the thread
    neither stores, updates nor deletes that entry, and starts no thread
    for that id. (A membership test on [file_id] then answers [True], and a
    read of the entry does not raise.) *)
Fixpoint safe {E A} (file_id : string) (t : Thread E A) : Prop :=
  match t with
  | Ret _ | Raise _ => True
  | Store k _ next => k <> file_id /\ safe file_id next
  | SetItem k _ next exc => k <> file_id /\ safe file_id next /\ safe file_id exc
  | Contains k next =>
      if decide (k = file_id) then safe file_id (next true) else forall b, safe file_id (next b)
  | GetItem k next exc =>
      (forall d, safe file_id (next d)) /\ (k <> file_id -> safe file_id exc)
  | Delete k next exc => k <> file_id /\ safe file_id next /\ safe file_id exc
  | Start t next => task_file_id t <> file_id /\ safe file_id next
  | Sleep _ next => safe file_id next
  | Log _ _ next => safe file_id next
  end.

(** No thread of the process is about to touch the entry of [file_id]. *)
Definition quiescent (file_id : string) (s : System) : Prop :=
  Forall (safe file_id) (handlers s) /\
  Forall (fun w => safe file_id w.2) (workers s).

(** Another thread deletes the entry of [file_id] just before operation
    [k] of this one, as [cleanup] does at line 194. *)
Definition evict_at (file_id : string) (k : nat) : nat -> Registry -> Registry :=
  fun n reg => if decide (n = k) then delete file_id reg else reg.

(** ** The operations of a thread *)

Inductive Op :=
| OpStore (k : string) (v : DownloadState)
| OpSetItem (k : string) (f : Field)
| OpContains (k : string)
| OpGetItem (k : string)
| OpDelete (k : string)
| OpStart (t : Task)
| OpSleep (secs : nat)
| OpLog (lvl : Level) (msg : string).

(** Every operation the thread can come to perform satisfies [P]. *)
Fixpoint every_op {E A} (P : Op -> Prop) (t : Thread E A) : Prop :=
  match t with
  | Ret _ | Raise _ => True
  | Store k v next => P (OpStore k v) /\ every_op P next
  | SetItem k f next exc => P (OpSetItem k f) /\ every_op P next /\ every_op P exc
  | Contains k next => P (OpContains k) /\ forall b, every_op P (next b)
  | GetItem k next exc => P (OpGetItem k) /\ (forall d, every_op P (next d)) /\ every_op P exc
  | Delete k next exc => P (OpDelete k) /\ every_op P next /\ every_op P exc
  | Start t next => P (OpStart t) /\ every_op P next
  | Sleep secs next => P (OpSleep secs) /\ every_op P next
  | Log lvl msg next => P (OpLog lvl msg) /\ every_op P next
  end.

(** The operation does not change the registry. *)
Definition reads (op : Op) : Prop :=
  match op with
  | OpStore _ _ | OpSetItem _ _ | OpDelete _ => False
  | _ => True
  end.

(** The operation creates no entry and starts no thread for a file id
    outside [K]. *)
Definition keeps_to (K : string -> Prop) (op : Op) : Prop :=
  match op with
  | OpStore k _ => K k
  | OpStart t => K (task_file_id t)
  | _ => True
  end.

(** The file ids of the begin-download requests among the labels. *)
Definition requested (ls : list Label) (k : string) : Prop :=
  exists data, In (Request (inr data)) ls /\ req_fileId data = Some k.

(** Every entry, and every entry or thread the process can come to
    create, is for a file id of [K]. *)
Definition confined (K : string -> Prop) (s : System) : Prop :=
  (forall k, is_Some (active_downloads s !! k) -> K k) /\
  Forall (every_op (keeps_to K)) (handlers s) /\
  Forall (fun w => every_op (keeps_to K) w.2) (workers s).

(** ** Scenarios *)

Definition demo_cfg : Config :=
  {| MOVIES_PATH := "/downloads/movies"; SERIES_PATH := "/downloads/series";
     PLEX_URL := "http://plex:32400"; PLEX_TOKEN := "token";
     format_file_size := fun n => pretty n +:+ " B" |}.

(** 1000 bytes delivered in two chunks of 500, with [content-length: 1000]. *)
Definition two_chunks : HttpResponse :=
  {| raise_for_status := None; content_length := Some (inr 1000);
     iter_content := [Chunk (replicate 500 x00) None; Chunk (replicate 500 x00) None] |}.

(** 500 bytes in one chunk from a server that declares no length. *)
Definition one_chunk_no_length : HttpResponse :=
  {| raise_for_status := None; content_length := None;
     iter_content := [Chunk (replicate 500 x00) None] |}.

Definition metadata : DownloadInfo :=
  {| downloadUrl := Some "http://host/file"; info_fileName := Some "file.mkv"; fileSize := None |}.

(** Every call succeeds, except the Plex refresh, which cannot connect. *)
Definition env_plex_down : Env :=
  {| time_time := 1700000000;
     initiate_download := fun _ => inr metadata;
     makedirs := fun _ => None;
     session_get := fun _ => inr two_chunks;
     open_wb := fun _ => None;
     chmod := fun _ => None;
     requests_put := fun _ => inl "Connection refused" |}.

(** The download URL is resolved but the connection times out. *)
Definition env_timeout : Env :=
  {| time_time := 1700000000;
     initiate_download := fun _ => inr metadata;
     makedirs := fun _ => None;
     session_get := fun _ => inl "Read timed out";
     open_wb := fun _ => None;
     chmod := fun _ => None;
     requests_put := fun _ => inr 200 |}.

(** [initiate_download] raises. *)
Definition env_no_metadata : Env :=
  {| time_time := 1700000000;
     initiate_download := fun _ => inl "File not found";
     makedirs := fun _ => None;
     session_get := fun _ => inr two_chunks;
     open_wb := fun _ => None;
     chmod := fun _ => None;
     requests_put := fun _ => inr 200 |}.

(** The server declares no length and the metadata has no size. *)
Definition env_unknown_size : Env :=
  {| time_time := 1700000000;
     initiate_download := fun _ => inr metadata;
     makedirs := fun _ => None;
     session_get := fun _ => inr one_chunk_no_length;
     open_wb := fun _ => None;
     chmod := fun _ => None;
     requests_put := fun _ => inr 200 |}.

Definition request_abc : RequestData :=
  {| req_fileId := Some "abc"; req_fileName := Some "a.mkv"; req_contentType := None |}.

(** Two requests for "abc" arrive together: each handler tests the
    registry before either download thread has run. The first thread gets
    the outcomes [env_a], the second [env_b]. *)
Definition race (env_a env_b : Env) : list Label :=
  [Request (inr request_abc); Request (inr request_abc);
   Handle 0 env_a; Handle 0 env_a;      (* log, membership test: absent *)
   Handle 1 env_b; Handle 1 env_b;      (* log, membership test: absent *)
   Handle 0 env_a; Handle 1 env_b;      (* each starts a download thread *)
   Handle 0 env_a; Handle 0 env_b].     (* both answer "Download started" *)

(** The first download thread runs to its end (23 operations) and leaves
    the pool, having started its cleanup thread. *)
Definition first_completes : list Label := replicate 23 (Work 0 env_plex_down).

(** The cleanup thread goes to sleep; the second download thread fails. *)
Definition second_fails : list Label :=
  Work 1 env_plex_down :: replicate 4 (Work 0 env_no_metadata).


(** 30 seconds pass and the cleanup thread runs to its end. *)
Definition eviction : list Label := replicate 30 Tick ++ replicate 3 (Work 0 env_plex_down).

(** One more request for "abc", handled to its end, when the registry
    has no entry for it (4 operations), and when it has one (5). *)
Definition retry : list Label :=
  Request (inr request_abc) :: replicate 4 (Handle 0 env_plex_down).
Definition duplicate : list Label :=
  Request (inr request_abc) :: replicate 5 (Handle 0 env_plex_down).

Definition status_of (file_id : string) (s : System) : option Status :=
  status <$> active_downloads s !! file_id.

(** One request for "abc", handled to its end, and its download thread,
    which fails, run to its end. *)
Definition lone_failure : list Label :=
  Request (inr request_abc) :: replicate 4 (Handle 0 env_no_metadata)
    ++ replicate 4 (Work 0 env_no_metadata).

(** The process after that: the failed entry, and no thread left. *)
Definition after_failure : System :=
  mkSystem {["abc" := error_entry (Some "a.mkv") "File not found"]} 0 [] []
    [inr (Started "Download started: a.mkv" "abc")].

Definition entry_abc : DownloadState := starting_entry (Some "a.mkv") 1700000000.

(** A stream that breaks after its first chunk of 500 bytes. *)
Definition broken_stream : list StreamItem :=
  [Chunk (replicate 500 x00) None; Broken "Connection reset"; Chunk (replicate 500 x00) None].

(** The metadata has no download URL. *)
Definition env_no_url : Env :=
  {| time_time := 1700000000;
     initiate_download := fun _ =>
       inr {| downloadUrl := None; info_fileName := Some "file.mkv"; fileSize := None |};
     makedirs := fun _ => None;
     session_get := fun _ => inr two_chunks;
     open_wb := fun _ => None;
     chmod := fun _ => None;
     requests_put := fun _ => inr 200 |}.

(** Another thread stores an entry for another file id at every step. *)
Definition busy_elsewhere : nat -> Registry -> Registry :=
  fun _ reg => <["zzz" := starting_entry None 0]> reg.

(** A request for "abc" whose handler has logged and tested the registry. *)
Definition request_in_flight : list Label :=
  [Request (inr request_abc); Handle 0 env_plex_down; Handle 0 env_plex_down].

(** One request for "abc", handled to its end, and its download thread,
    which completes, run to its end. *)
Definition lone_success : list Label :=
  Request (inr request_abc) :: replicate 4 (Handle 0 env_plex_down)
    ++ replicate 23 (Work 0 env_plex_down).

(** After that download: the cleanup thread goes to sleep; 30 seconds
    later a request for "abc" finds the entry; the cleanup thread wakes up
    and deletes it; the request handler then reads the entry. *)
Definition cleanup_overtakes_request : list Label :=
  lone_success
    ++ [Work 0 env_plex_down] ++ replicate 30 Tick
    ++ [Request (inr request_abc); Handle 0 env_plex_down; Handle 0 env_plex_down]
    ++ [Work 0 env_plex_down; Work 0 env_plex_down]
    ++ replicate 3 (Handle 0 env_plex_down).




(** Two films and a subdirectory under the movies directory, one episode
    under the series directory. *)
Definition demo_fs : FileSystem :=
  {| path_exists := fun p => String.eqb p "/downloads/movies" || String.eqb p "/downloads/series";
     listdir := fun p =>
       if String.eqb p "/downloads/movies" then inr ["a.mkv"; "extras"; "b.mkv"]
       else if String.eqb p "/downloads/series" then inr ["s01e01.mkv"]
       else inl "No such file or directory";
     isfile := fun p =>
       String.eqb p "/downloads/movies/a.mkv" || String.eqb p "/downloads/movies/b.mkv"
       || String.eqb p "/downloads/series/s01e01.mkv";
     os_stat := fun p =>
       if String.eqb p "/downloads/movies/a.mkv" then inr (mkStat 700 100)
       else if String.eqb p "/downloads/movies/b.mkv" then inr (mkStat 900 300)
       else if String.eqb p "/downloads/series/s01e01.mkv" then inr (mkStat 300 200)
       else inl "No such file or directory" |}.

Definition demo_listing : list FileEntry :=
  [mkFileEntry "b.mkv" 900 "900 B" 300 Movie;
   mkFileEntry "s01e01.mkv" 300 "300 B" 200 Series;
   mkFileEntry "a.mkv" 700 "700 B" 100 Movie].

(** * Properties *)

(** ** Rounding to binary64 is monotone *)

Section Float.
Local Open Scope Q_scope.

Lemma round_half_even_comp x y : x == y -> round_half_even x = round_half_even y.
Proof.
  intros H. unfold round_half_even.
  assert (Hf : Qfloor x = Qfloor y) by (rewrite H; reflexivity).
  rewrite Hf.
  assert (Hc : (x - inject_Z (Qfloor y) ?= 1 # 2) = (y - inject_Z (Qfloor y) ?= 1 # 2))
    by (rewrite H; reflexivity).
  rewrite Hc. reflexivity.
Qed.

Lemma round_half_even_bounds x :
  (Qfloor x <= round_half_even x <= Qfloor x + 1)%Z.
Proof.
  unfold round_half_even.
  destruct (x - inject_Z (Qfloor x) ?= 1 # 2); try destruct (Z.even (Qfloor x)); lia.
Qed.

Lemma round_half_even_Z k : round_half_even (inject_Z k) = k.
Proof.
  unfold round_half_even. rewrite Qfloor_Z.
  assert (H : (inject_Z k - inject_Z k ?= 1 # 2) = Lt).
  { apply Qlt_alt. assert (E : inject_Z k - inject_Z k == 0) by ring. rewrite E. reflexivity. }
  rewrite H. reflexivity.
Qed.

Lemma round_half_even_mono x y : x <= y -> (round_half_even x <= round_half_even y)%Z.
Proof.
  intros Hxy.
  pose proof (Qfloor_resp_le _ _ Hxy) as Hf.
  pose proof (round_half_even_bounds x) as Bx.
  pose proof (round_half_even_bounds y) as By.
  destruct (Z.eq_dec (Qfloor x) (Qfloor y)) as [E|NE]; [|lia].
  unfold round_half_even in *. rewrite <- E in *.
  destruct (Qcompare_spec (x - inject_Z (Qfloor x)) (1 # 2));
    destruct (Qcompare_spec (y - inject_Z (Qfloor x)) (1 # 2));
    try destruct (Z.even (Qfloor x)); try lia; exfalso; lra.
Qed.

Lemma pow2_pos q : 0 < 2 ^ q.
Proof. apply Qpower_0_lt. reflexivity. Qed.

Lemma pow2_le a b : (a <= b)%Z -> 2 ^ a <= 2 ^ b.
Proof. intros. apply Qpower_le_compat_l; [assumption | discriminate]. Qed.

Lemma pow2_split a b : 2 ^ (a + b) == 2 ^ a * 2 ^ b.
Proof. apply Qpower_plus. discriminate. Qed.

Lemma quotient_lower (A B N D : Q) :
  0 < A -> 0 < B -> A <= N -> D < B * 2 -> 0 < D -> A * / (B * 2) * D <= N.
Proof.
  intros.
  assert (NZ : ~ B == 0) by lra.
  assert (HI : / (B * 2) * (B * 2) == 1) by (field; exact NZ).
  assert (HP : 0 < / (B * 2)) by (apply Qinv_lt_0_compat; lra).
  apply Qle_trans with (A * (/ (B * 2) * (B * 2))).
  - rewrite <- Qmult_assoc. apply Qmult_le_l; [assumption|].
    apply Qmult_le_l; [assumption|]. lra.
  - rewrite HI. lra.
Qed.

Lemma quotient_upper (A B N D : Q) :
  0 < A -> 0 < B -> B <= D -> N < A * 2 -> N < A * 2 * / B * D.
Proof.
  intros.
  assert (NZ : ~ B == 0) by lra.
  assert (HI : / B * B == 1) by (field; exact NZ).
  assert (HP : 0 < / B) by (apply Qinv_lt_0_compat; lra).
  apply Qlt_le_trans with (A * 2 * (/ B * B)).
  - rewrite HI. lra.
  - rewrite <- !Qmult_assoc. apply Qmult_le_l; [lra|].
    apply Qmult_le_l; [reflexivity|]. apply Qmult_le_l; [assumption|]. assumption.
Qed.

Lemma Qlog2_spec x : 0 < x -> 2 ^ Qlog2 x <= x /\ x < 2 ^ (Qlog2 x + 1).
Proof.
  intros Hx. unfold Qlog2.
  destruct x as [n d]. cbn [Qnum Qden].
  assert (Hn : (0 < n)%Z) by (unfold Qlt in Hx; cbn in Hx; lia).
  set (a := Z.log2 n). set (b := Z.log2 (Z.pos d)).
  destruct (Z.log2_spec n Hn) as [Ha1 Ha2]. fold a in Ha1, Ha2.
  destruct (Z.log2_spec (Z.pos d) ltac:(lia)) as [Hb1 Hb2]. fold b in Hb1, Hb2.
  assert (Ha0 : (0 <= a)%Z) by apply Z.log2_nonneg.
  assert (Hb0 : (0 <= b)%Z) by apply Z.log2_nonneg.
  assert (HA : inject_Z (2 ^ a) == 2 ^ a) by (apply Zpower_Qpower; lia).
  assert (HB : inject_Z (2 ^ b) == 2 ^ b) by (apply Zpower_Qpower; lia).
  assert (Hx' : n # d == inject_Z n / inject_Z (Z.pos d)) by apply Qmake_Qdiv.
  assert (Hd : 0 < inject_Z (Z.pos d)) by (unfold Qlt; cbn; lia).
  assert (PB : 0 < inject_Z (2 ^ b)) by (rewrite HB; apply pow2_pos).
  assert (PA : 0 < inject_Z (2 ^ a)) by (rewrite HA; apply pow2_pos).
  assert (LA : inject_Z (2 ^ a) <= inject_Z n) by (rewrite <- Zle_Qle; lia).
  assert (LB : inject_Z (2 ^ b) <= inject_Z (Z.pos d)) by (rewrite <- Zle_Qle; lia).
  assert (UA : inject_Z n < inject_Z (2 ^ a) * 2).
  { assert (E : inject_Z (2 ^ a) * 2 == inject_Z (2 ^ (a + 1))).
    { rewrite Z.pow_add_r by lia. rewrite inject_Z_mult. reflexivity. }
    rewrite E, <- Zlt_Qlt. replace (Z.succ a) with (a + 1)%Z in Ha2 by lia. lia. }
  assert (UB : inject_Z (Z.pos d) < inject_Z (2 ^ b) * 2).
  { assert (E : inject_Z (2 ^ b) * 2 == inject_Z (2 ^ (b + 1))).
    { rewrite Z.pow_add_r by lia. rewrite inject_Z_mult. reflexivity. }
    rewrite E, <- Zlt_Qlt. replace (Z.succ b) with (b + 1)%Z in Hb2 by lia. lia. }
  assert (Hlo : 2 ^ (a - b - 1) <= n # d).
  { rewrite Hx'. apply Qle_shift_div_l; [assumption|].
    replace (a - b - 1)%Z with (a + - (b + 1))%Z by lia.
    rewrite pow2_split, Qpower_opp, pow2_split.
    change (2 ^ 1) with 2. rewrite <- HA, <- HB.
    apply quotient_lower; assumption. }
  assert (Hhi : n # d < 2 ^ (a - b + 1)).
  { rewrite Hx'. apply Qlt_shift_div_r; [assumption|].
    replace (a - b + 1)%Z with ((a + 1) + - b)%Z by lia.
    rewrite pow2_split, Qpower_opp, pow2_split.
    change (2 ^ 1) with 2. rewrite <- HA, <- HB.
    apply quotient_upper; assumption. }
  destruct (Qle_bool (2 ^ (a - b)) (n # d)) eqn:Hc.
  - apply Qle_bool_iff in Hc. split; [assumption|assumption].
  - assert (Hc' : n # d < 2 ^ (a - b)).
    { apply Qnot_le_lt. intros Hle. apply Qle_bool_iff in Hle. congruence. }
    split; [assumption|]. replace (a - b - 1 + 1)%Z with (a - b)%Z by lia. assumption.
Qed.

Lemma Qlog2_mono x y : 0 < x -> x <= y -> (Qlog2 x <= Qlog2 y)%Z.
Proof.
  intros Hx Hxy.
  destruct (Qlog2_spec x Hx) as [Lx _].
  destruct (Qlog2_spec y (Qlt_le_trans _ _ _ Hx Hxy)) as [_ Uy].
  destruct (Z_le_gt_dec (Qlog2 x) (Qlog2 y)) as [|Hgt]; [assumption|exfalso].
  assert (Hp : 2 ^ (Qlog2 y + 1) <= 2 ^ Qlog2 x) by (apply pow2_le; lia).
  apply (Qlt_irrefl y).
  eapply Qlt_le_trans; [exact Uy|].
  eapply Qle_trans; [exact Hp|]. eapply Qle_trans; [exact Lx|exact Hxy].
Qed.

Lemma div_pow2_mono q x y : x <= y -> x / 2 ^ q <= y / 2 ^ q.
Proof.
  intros. unfold Qdiv. apply Qmult_le_compat_r; [assumption|].
  apply Qlt_le_weak, Qinv_lt_0_compat, pow2_pos.
Qed.

Lemma round_to_grid_mono q x y : x <= y -> round_to_grid q x <= round_to_grid q y.
Proof.
  intros. unfold round_to_grid.
  apply Qmult_le_compat_r; [|apply Qlt_le_weak, pow2_pos].
  rewrite <- Zle_Qle. apply round_half_even_mono, div_pow2_mono. assumption.
Qed.

Lemma round_to_grid_comp q x y : x == y -> round_to_grid q x == round_to_grid q y.
Proof.
  intros H. unfold round_to_grid.
  rewrite (round_half_even_comp (x / 2 ^ q) (y / 2 ^ q)) by (rewrite H; reflexivity).
  reflexivity.
Qed.

Lemma pow2_nonzero q : ~ 2 ^ q == 0.
Proof. intros H. pose proof (pow2_pos q) as P. rewrite H in P. apply (Qlt_irrefl 0 P). Qed.

Lemma round_to_grid_fix q k : round_to_grid q (inject_Z k * 2 ^ q) == inject_Z k * 2 ^ q.
Proof.
  unfold round_to_grid.
  rewrite (round_half_even_comp _ (inject_Z k)).
  - rewrite round_half_even_Z. reflexivity.
  - field. apply pow2_nonzero.
Qed.

Lemma pow2_on_grid q e : (q <= e)%Z -> 2 ^ e == inject_Z (2 ^ (e - q)) * 2 ^ q.
Proof.
  intros. rewrite Zpower_Qpower by lia. change (inject_Z 2) with 2.
  rewrite <- pow2_split. replace (e - q + q)%Z with e by lia. reflexivity.
Qed.

Lemma round_to_grid_pow2 q e : (q <= e)%Z -> round_to_grid q (2 ^ e) == 2 ^ e.
Proof.
  intros H. rewrite (round_to_grid_comp q _ _ (pow2_on_grid q e H)).
  rewrite round_to_grid_fix. symmetry. apply pow2_on_grid. assumption.
Qed.

Lemma Qfloor_nonneg x : 0 <= x -> (0 <= Qfloor x)%Z.
Proof. intros H. apply (Qfloor_resp_le 0 x H). Qed.

Lemma round_to_grid_nonneg q x : 0 <= x -> 0 <= round_to_grid q x.
Proof.
  intros H. unfold round_to_grid.
  apply Qmult_le_0_compat; [|apply Qlt_le_weak, pow2_pos].
  change 0 with (inject_Z 0). rewrite <- Zle_Qle.
  pose proof (round_half_even_bounds (x / 2 ^ q)).
  assert (0 <= Qfloor (x / 2 ^ q))%Z.
  { apply Qfloor_nonneg. unfold Qdiv. apply Qmult_le_0_compat; [assumption|].
    apply Qlt_le_weak, Qinv_lt_0_compat, pow2_pos. }
  lia.
Qed.

Lemma nearest_float_nonneg x : 0 <= x -> 0 <= nearest_float x.
Proof. apply round_to_grid_nonneg. Qed.

Lemma nearest_float_zero x : x == 0 -> nearest_float x == 0.
Proof.
  intros H. unfold nearest_float. generalize (ulp_exponent x). intros q.
  unfold round_to_grid.
  rewrite (round_half_even_comp _ (inject_Z 0)).
  - rewrite round_half_even_Z. ring.
  - rewrite H. unfold Qdiv. ring.
Qed.

Lemma nearest_float_mono x y : 0 < x -> x <= y -> nearest_float x <= nearest_float y.
Proof.
  intros Hx Hxy. unfold nearest_float.
  pose proof (Qlog2_mono x y Hx Hxy) as Hl.
  destruct (Z.eq_dec (ulp_exponent x) (ulp_exponent y)) as [E|NE].
  - rewrite E. apply round_to_grid_mono. assumption.
  - unfold ulp_exponent in *.
    set (e := Qlog2 y) in *.
    destruct (Qlog2_spec x Hx) as [_ Ux].
    destruct (Qlog2_spec y (Qlt_le_trans _ _ _ Hx Hxy)) as [Ly _]. fold e in Ly.
    assert (Hg1 : x <= 2 ^ e).
    { apply Qlt_le_weak. eapply Qlt_le_trans; [exact Ux|]. apply pow2_le. lia. }
    eapply Qle_trans; [apply (round_to_grid_mono _ _ _ Hg1)|].
    rewrite round_to_grid_pow2 by lia.
    rewrite <- (round_to_grid_pow2 (Z.max (e - 52) (-1074)) e) by lia.
    apply round_to_grid_mono. assumption.
Qed.

Lemma binary64_nonneg_eq x : 0 <= x -> binary64 x = nearest_float x.
Proof.
  intros H. unfold binary64.
  destruct (Qcompare_spec x 0) as [| Hlt |]; try reflexivity.
  exfalso. apply (Qlt_irrefl x). eapply Qlt_le_trans; eassumption.
Qed.

Lemma binary64_nonneg x : 0 <= x -> 0 <= binary64 x.
Proof. intros. rewrite binary64_nonneg_eq by assumption. apply nearest_float_nonneg. assumption. Qed.

Lemma binary64_mono x y : 0 <= x -> x <= y -> binary64 x <= binary64 y.
Proof.
  intros Hx Hxy.
  rewrite !binary64_nonneg_eq by (try assumption; eapply Qle_trans; eassumption).
  destruct (Qle_lt_or_eq _ _ Hx) as [Hpos|Hz].
  - apply nearest_float_mono; assumption.
  - rewrite (nearest_float_zero x) by (symmetry; assumption).
    apply nearest_float_nonneg. eapply Qle_trans; eassumption.
Qed.

Lemma int_of_float_nonneg_eq x : 0 <= x -> int_of_float x = Qfloor x.
Proof.
  intros H. unfold int_of_float.
  destruct (Qcompare_spec x 0) as [| Hlt |]; try reflexivity.
  exfalso. apply (Qlt_irrefl x). eapply Qlt_le_trans; eassumption.
Qed.

Lemma eighty_nonneg x : 0 <= x -> (0 <= eighty x)%Z.
Proof.
  intros H. unfold eighty, float_mul.
  assert (0 <= binary64 x * 80).
  { apply Qmult_le_0_compat; [apply binary64_nonneg; assumption | discriminate]. }
  rewrite int_of_float_nonneg_eq by (apply binary64_nonneg; assumption).
  apply Qfloor_nonneg, binary64_nonneg. assumption.
Qed.

Lemma eighty_mono x y : 0 <= x -> x <= y -> (eighty x <= eighty y)%Z.
Proof.
  intros Hx Hxy. unfold eighty, float_mul.
  assert (Hy : 0 <= y) by (eapply Qle_trans; eassumption).
  assert (0 <= binary64 x * 80).
  { apply Qmult_le_0_compat; [apply binary64_nonneg; assumption | discriminate]. }
  assert (0 <= binary64 y * 80).
  { apply Qmult_le_0_compat; [apply binary64_nonneg; assumption | discriminate]. }
  rewrite !int_of_float_nonneg_eq by (apply binary64_nonneg; assumption).
  apply Qfloor_resp_le, binary64_mono; [assumption|].
  apply Qmult_le_compat_r; [|discriminate].
  apply binary64_mono; assumption.
Qed.

Lemma quotient_nonneg d t : (0 <= d)%Z -> (0 < t)%Z -> 0 <= inject_Z d / inject_Z t.
Proof.
  intros. apply Qle_shift_div_l.
  - change 0 with (inject_Z 0). rewrite <- Zlt_Qlt. assumption.
  - rewrite Qmult_0_l. change 0 with (inject_Z 0). rewrite <- Zle_Qle. assumption.
Qed.

Lemma quotient_le a b c d :
  (0 < b)%Z -> (0 < d)%Z -> (a * d <= c * b)%Z ->
  inject_Z a / inject_Z b <= inject_Z c / inject_Z d.
Proof.
  intros Hb Hd H.
  assert (Pb : 0 < inject_Z b) by (change 0 with (inject_Z 0); rewrite <- Zlt_Qlt; assumption).
  assert (Pd : 0 < inject_Z d) by (change 0 with (inject_Z 0); rewrite <- Zlt_Qlt; assumption).
  apply Qle_shift_div_l; [assumption|].
  unfold Qdiv. rewrite <- Qmult_assoc, (Qmult_comm (/ inject_Z b)), Qmult_assoc.
  apply Qle_shift_div_r; [assumption|].
  rewrite <- !inject_Z_mult, <- Zle_Qle. lia.
Qed.

Lemma progress_percent_eighty d t :
  progress_percent d t = Z.min 90 (10 + eighty (inject_Z d / inject_Z t)).
Proof. reflexivity. Qed.

Lemma progress_percent_band d t : (0 <= d)%Z -> (0 < t)%Z -> (10 <= progress_percent d t <= 90)%Z.
Proof.
  intros. rewrite progress_percent_eighty.
  pose proof (eighty_nonneg _ (quotient_nonneg d t ltac:(assumption) ltac:(assumption))). lia.
Qed.

Lemma progress_percent_mono d1 d2 t :
  (0 <= d1)%Z -> (d1 <= d2)%Z -> (0 < t)%Z -> (progress_percent d1 t <= progress_percent d2 t)%Z.
Proof.
  intros. rewrite !progress_percent_eighty.
  assert (eighty (inject_Z d1 / inject_Z t) <= eighty (inject_Z d2 / inject_Z t))%Z.
  { apply eighty_mono; [apply quotient_nonneg; assumption|].
    apply quotient_le; try assumption. nia. }
  lia.
Qed.
End Float.

Section Agreement.
Local Open Scope Q_scope.

Lemma agrees_upto_2_46 : forallb (agrees_upto (2 ^ 46)) (map Z.of_nat (seq 0 80)) = true.
Proof. vm_compute. reflexivity. Qed.

Lemma eighty_one : eighty 1 = 80%Z.
Proof. vm_compute. reflexivity. Qed.

(** Below 64 TiB the two roundings never change the percentage: the
    float expression of line 155 equals the exact integer formula. *)
Lemma progress_percent_exact_agrees d t :
  (0 <= d)%Z -> (0 < t <= 2 ^ 46)%Z ->
  progress_percent d t = progress_percent_exact d t.
Proof.
  intros Hd [Ht Hb]. rewrite progress_percent_eighty. unfold progress_percent_exact.
  set (k := (d * 80 / t)%Z).
  assert (Hk : (k * t <= d * 80 < (k + 1) * t)%Z).
  { unfold k. pose proof (Z.mul_div_le (d * 80) t Ht).
    pose proof (Z.mul_succ_div_gt (d * 80) t Ht). lia. }
  assert (Hk0 : (0 <= k)%Z) by (apply Z.div_pos; lia).
  assert (Hx : 0 <= inject_Z d / inject_Z t) by (apply quotient_nonneg; assumption).
  destruct (Z_lt_le_dec k 80) as [Hlt|Hge].
  - pose proof agrees_upto_2_46 as Hall. rewrite forallb_forall in Hall.
    assert (Hin : In k (map Z.of_nat (seq 0 80))).
    { rewrite <- (Z2Nat.id k) by assumption. apply in_map, in_seq. lia. }
    specialize (Hall k Hin). unfold agrees_upto in Hall.
    apply andb_prop in Hall. destruct Hall as [Hlo Hhi].
    apply Z.leb_le in Hlo, Hhi.
    assert (L : (eighty (inject_Z k / 80) <= eighty (inject_Z d / inject_Z t))%Z).
    { apply eighty_mono.
      - apply (quotient_nonneg k 80); lia.
      - apply (quotient_le k 80 d t); lia. }
    assert (U : (eighty (inject_Z d / inject_Z t)
                 <= eighty (inject_Z ((k + 1) * 2 ^ 46 - 1) / inject_Z (80 * 2 ^ 46)))%Z).
    { apply eighty_mono; [assumption|]. apply quotient_le; [assumption|lia|]. nia. }
    lia.
  - assert (L : (eighty 1 <= eighty (inject_Z d / inject_Z t))%Z).
    { apply eighty_mono; [discriminate|].
      apply Qle_shift_div_l.
      - change 0 with (inject_Z 0). rewrite <- Zlt_Qlt. assumption.
      - rewrite Qmult_1_l, <- Zle_Qle. nia. }
    rewrite eighty_one in L. lia.
Qed.
End Agreement.

(** ** Running sequential compositions *)

Lemma run_bind {E A B} (m : Thread E A) (f : A -> Thread E B) (reg : Registry) :
  run (bind m f) reg =
    match result (run m reg) with
    | inl e => mkOutcome (registry (run m reg)) (trace (run m reg)) (inl e)
    | inr a =>
        mkOutcome (registry (run (f a) (registry (run m reg))))
          (trace (run m reg) ++ trace (run (f a) (registry (run m reg))))
          (result (run (f a) (registry (run m reg))))
    end.
Proof.
  revert reg.
  induction m as [a|e|k v next IH|k fld next IH exc IHx|k next IH|k next IH exc IHx
                 |k next IH exc IHx|t next IH|secs next IH|lvl msg next IH];
    intros reg; simpl.
  - destruct (run (f a) reg); reflexivity.
  - reflexivity.
  - rewrite IH. unfold emit. simpl. destruct (result (run next _)); reflexivity.
  - destruct (reg !! k).
    + rewrite IH. unfold emit. simpl. destruct (result (run next _)); reflexivity.
    + apply IHx.
  - apply IH.
  - destruct (reg !! k); [apply IH | apply IHx].
  - destruct (reg !! k).
    + rewrite IH. unfold emit. simpl. destruct (result (run next _)); reflexivity.
    + apply IHx.
  - rewrite IH. unfold emit. simpl. destruct (result (run next _)); reflexivity.
  - rewrite IH. unfold emit. simpl. destruct (result (run next _)); reflexivity.
  - rewrite IH. unfold emit. simpl. destruct (result (run next _)); reflexivity.
Qed.

Lemma run_try_except {E E' A} (body : Thread E A) (handler : E -> Thread E' A) (reg : Registry) :
  run (try_except body handler) reg =
    match result (run body reg) with
    | inr a => mkOutcome (registry (run body reg)) (trace (run body reg)) (inr a)
    | inl e =>
        mkOutcome (registry (run (handler e) (registry (run body reg))))
          (trace (run body reg) ++ trace (run (handler e) (registry (run body reg))))
          (result (run (handler e) (registry (run body reg))))
    end.
Proof.
  revert reg.
  induction body as [a|e|k v next IH|k fld next IH exc IHx|k next IH|k next IH exc IHx
                    |k next IH exc IHx|t next IH|secs next IH|lvl msg next IH];
    intros reg; simpl.
  - reflexivity.
  - destruct (run (handler e) reg); reflexivity.
  - rewrite IH. unfold emit. simpl. destruct (result (run next _)); reflexivity.
  - destruct (reg !! k).
    + rewrite IH. unfold emit. simpl. destruct (result (run next _)); reflexivity.
    + apply IHx.
  - apply IH.
  - destruct (reg !! k); [apply IH | apply IHx].
  - destruct (reg !! k).
    + rewrite IH. unfold emit. simpl. destruct (result (run next _)); reflexivity.
    + apply IHx.
  - rewrite IH. unfold emit. simpl. destruct (result (run next _)); reflexivity.
  - rewrite IH. unfold emit. simpl. destruct (result (run next _)); reflexivity.
  - rewrite IH. unfold emit. simpl. destruct (result (run next _)); reflexivity.
Qed.

Lemma run_locals {V E A} (v : V) (body : Thread E A) (reg : Registry) :
  run (locals v body) reg =
    mkOutcome (registry (run body reg)) (trace (run body reg))
      (match result (run body reg) with
       | inl e => inl (v, e)
       | inr a => inr a
       end).
Proof.
  unfold locals. rewrite run_try_except.
  destruct (result (run body reg)); simpl; [rewrite app_nil_r|]; reflexivity.
Qed.

(** One thread run alone and the scheduler agree: given enough steps,
    the thread scheduled alone ends with the registry and the result of
    [run]. *)
Lemma run_steps {E A} (t : Thread E A) :
  forall reg, exists n, steps n t reg = Some (registry (run t reg), result (run t reg)).
Proof.
  induction t as [a|e|k v next IH|k fld next IH exc IHx|k next IH|k next IH exc IHx
                 |k next IH exc IHx|t next IH|secs next IH|lvl msg next IH];
    intros reg.
  - exists O. reflexivity.
  - exists O. reflexivity.
  - destruct (IH (<[k:=v]> reg)) as [n Hn]. exists (S n). exact Hn.
  - simpl. destruct (reg !! k) as [d|] eqn:Hk.
    + destruct (IH (<[k:=set_field fld d]> reg)) as [n Hn]. exists (S n).
      simpl. rewrite Hk. exact Hn.
    + destruct (IHx reg) as [n Hn]. exists (S n). simpl. rewrite Hk. exact Hn.
  - destruct (IH (bool_decide (is_Some (reg !! k))) reg) as [n Hn]. exists (S n). exact Hn.
  - simpl. destruct (reg !! k) as [d|] eqn:Hk.
    + destruct (IH d reg) as [n Hn]. exists (S n). simpl. rewrite Hk. exact Hn.
    + destruct (IHx reg) as [n Hn]. exists (S n). simpl. rewrite Hk. exact Hn.
  - simpl. destruct (reg !! k) as [d|] eqn:Hk.
    + destruct (IH (delete k reg)) as [n Hn]. exists (S n). simpl. rewrite Hk. exact Hn.
    + destruct (IHx reg) as [n Hn]. exists (S n). simpl. rewrite Hk. exact Hn.
  - destruct (IH reg) as [n Hn]. exists (S n). exact Hn.
  - destruct (IH reg) as [n Hn]. exists (S n). exact Hn.
  - destruct (IH reg) as [n Hn]. exists (S n). exact Hn.
Qed.

Lemma run_bind_returns {E A B} (m : Thread E A) (f : A -> Thread E B) reg reg' tr a :
  run m reg = mkOutcome reg' tr (inr a) ->
  run (bind m f) reg = prepend tr (run (f a) reg').
Proof. intros H. rewrite run_bind, H. reflexivity. Qed.

Lemma run_bind_ret {E A B} (m : Thread E A) (g : A -> B) (reg : Registry) :
  run (bind m (fun a => Ret (g a))) reg =
    mkOutcome (registry (run m reg)) (trace (run m reg))
      (match result (run m reg) with
       | inl e => inl e
       | inr a => inr (g a)
       end).
Proof.
  rewrite run_bind. destruct (result (run m reg)); simpl; [|rewrite app_nil_r]; reflexivity.
Qed.

(** ** The phases of a download task *)

(** Symbolic execution: run up to the next call whose outcome the
    environment decides, and split on it. *)
Ltac norm1 :=
  cbn [run bind try_except mbind mret thread_bind thread_ret emit prepend
       registry trace result store set_item contains get_item delete_item
       start sleep log call call_ subscript locals].
Ltac norm := norm1; repeat (rewrite lookup_insert_eq; norm1).
Ltac exec_step :=
  norm;
  match goal with
  | H : ?reg !! ?k = Some _ |- context [?reg !! ?k] => rewrite H
  | |- context [call ?r] => destruct r eqn:?
  | |- context [call_ ?r] => destruct r eqn:?
  | |- context [subscript _ ?v] => destruct v eqn:?
  | |- context [if falsy ?x then _ else _] => destruct (falsy x) eqn:?
  | |- context [content_length ?r] => destruct (content_length r) eqn:?
  end.
Ltac exec := repeat exec_step; norm.

#[local] Arguments progress_percent : simpl never.

Section Phases.
Context (cfg : Config) (env : Env).

Lemma run_resolve file_id file_name reg :
  registry (run (resolve env file_id file_name) reg)
    = <[file_id := starting_entry file_name (time_time env)]> reg /\
  trace (run (resolve env file_id file_name) reg)
    = [EvStore file_id (starting_entry file_name (time_time env))].
Proof. unfold resolve. exec; split; reflexivity. Qed.

Lemma run_set_permissions file_path file_name reg :
  exists lvl msg,
    run (set_permissions env file_path file_name) reg = mkOutcome reg [EvLog lvl msg] (inr tt).
Proof. unfold set_permissions. exec; eauto. Qed.

Lemma run_refresh_plex :
  exists lvl msg, forall reg,
    run (refresh_plex cfg env) reg = mkOutcome reg [EvLog lvl msg] (inr tt).
Proof.
  unfold refresh_plex. destruct (negb _); [|norm; eauto].
  exec; [eauto|]. destruct (_ =? _); norm; eauto.
Qed.


Lemma run_finish file_id file_name file_path downloaded_size reg d :
  reg !! file_id = Some d ->
  exists tr,
    run (finish cfg env file_id file_name file_path downloaded_size) reg
      = mkOutcome (<[file_id := completed_entry d file_path downloaded_size]> reg) tr (inr tt) /\
    started tr = [CleanupTask file_id] /\
    progress_writes file_id tr = [100] /\
    forall lvl msg r,
      run (refresh_plex cfg env) r = mkOutcome r [EvLog lvl msg] (inr tt) ->
      In (EvLog lvl msg) tr.
Proof.
  intros Hd. unfold finish.
  destruct (run_set_permissions file_path file_name reg) as (l1 & m1 & R1).
  unfold mbind, thread_bind. rewrite (run_bind_returns _ _ _ _ _ _ R1).
  exec.
  destruct run_refresh_plex as (l2 & m2 & R2).
  rewrite !insert_insert_eq. fold (completed_entry d file_path downloaded_size).
  rewrite (run_bind_returns _ _ _ _ _ _ (R2 _)). norm.
  eexists. split; [reflexivity|]. split; [reflexivity|]. split.
  - unfold progress_writes. simpl. rewrite !decide_True by reflexivity. reflexivity.
  - intros lvl msg r Hr. rewrite R2 in Hr. injection Hr as -> ->.
    simpl. tauto.
Qed.


Lemma started_app tr1 tr2 : started (tr1 ++ tr2) = started tr1 ++ started tr2.
Proof. apply omap_app. Qed.

Lemma steady_done {E A} file_id lo hi reg d (r : E + A) :
  reg !! file_id = Some d -> steady file_id lo hi (mkOutcome reg [] r).
Proof. intros H. repeat split; simpl; eauto. Qed.

Lemma steady_emit_progress {E A} file_id lo hi p (o : Outcome E A) :
  lo <= p <= hi -> steady file_id p hi o ->
  steady file_id lo hi (emit (EvSetItem file_id (FProgress p)) o).
Proof.
  intros ? (? & ? & ? & ?). unfold steady, progress_writes, started. simpl.
  rewrite decide_True by reflexivity.
  repeat split; try assumption; try lia. constructor; [lia|assumption].
Qed.

Lemma steady_emit_other {E A} file_id lo hi ev (o : Outcome E A) :
  progress_written file_id ev = None -> started_task ev = None ->
  steady file_id lo hi o -> steady file_id lo hi (emit ev o).
Proof.
  intros Hp Hs (? & ? & ? & ?). unfold steady, progress_writes, started. simpl.
  rewrite Hp, Hs. repeat split; assumption.
Qed.

Lemma steady_result {E A B} file_id lo hi (o : Outcome E A) (r : E + B) :
  steady file_id lo hi o -> steady file_id lo hi (mkOutcome (registry o) (trace o) r).
Proof. trivial. Qed.

(** The loop over the chunks, when the entry is there. *)
Lemma stream_loop_steady file_id total_size items :
  forall downloaded_size reg d lo,
    reg !! file_id = Some d ->
    0 <= downloaded_size ->
    lo <= 90 ->
    (0 < total_size -> forall n, downloaded_size < n -> lo <= progress_percent n total_size) ->
    steady file_id lo 90 (run (stream_loop file_id total_size items downloaded_size) reg).
Proof.
  induction items as [|item items IH]; intros downloaded_size reg d lo Hd Hn Hlo Hnext.
  - simpl. eapply steady_done; eassumption.
  - destruct item as [data write|e]; [|simpl; eapply steady_done; eassumption].
    cbn [stream_loop]. unfold receive_chunk.
    destruct data as [|b data]; [norm; eapply IH; eassumption|].
    destruct write as [e|]; [norm; eapply steady_done; eassumption|].
    set (n := downloaded_size + Z.of_nat (length (b :: data))).
    assert (Hlt : downloaded_size < n) by (unfold n; simpl length; lia).
    case_bool_decide as Ht.
    + exec.
      pose proof (progress_percent_band n total_size ltac:(lia) Ht) as Hband.
      apply steady_emit_progress; [specialize (Hnext Ht n Hlt); lia|].
      apply steady_emit_other; [reflexivity..|].
      apply steady_emit_other; [reflexivity..|].
      eapply IH; [apply lookup_insert_eq|lia|lia|].
      intros _ m Hm. apply progress_percent_mono; lia.
    + norm. eapply IH; try eassumption; [lia|]. intros; lia.
Qed.

(** While the total size is unknown the loop writes nothing. *)
Lemma stream_loop_unknown_total file_id total_size items :
  total_size <= 0 ->
  forall downloaded_size reg,
    registry (run (stream_loop file_id total_size items downloaded_size) reg) = reg /\
    trace (run (stream_loop file_id total_size items downloaded_size) reg) = [].
Proof.
  intros Ht. induction items as [|item items IH]; intros downloaded_size reg.
  - split; reflexivity.
  - destruct item as [data write|e]; [|split; reflexivity].
    cbn [stream_loop]. unfold receive_chunk.
    destruct data as [|b data]; [norm; apply IH|].
    destruct write as [e|]; [norm; split; reflexivity|].
    rewrite bool_decide_false by lia. norm. apply IH.
Qed.

Lemma run_transfer file_id file_name download_path download_url expected_size reg d :
  reg !! file_id = Some d ->
  steady file_id 0 90
    (run (transfer env file_id file_name download_path download_url expected_size) reg).
Proof.
  intros Hd. unfold transfer. exec;
    repeat first [ apply steady_emit_progress; [lia|]
                 | apply steady_emit_other; [reflexivity..|] ];
    try (eapply steady_done; first [eassumption | apply lookup_insert_eq]).
  all: unfold mret, thread_ret, mbind, thread_bind;
    rewrite (run_bind_ret _ (fun n => (os_path_join download_path file_name, n)));
    apply steady_result;
    (eapply stream_loop_steady; [apply lookup_insert_eq|lia|lia|]);
    intros Ht n Hn; apply progress_percent_band; lia.
Qed.

(** The [try] block, phase by phase. *)
Lemma run_try_block file_id file_name download_path reg :
  let first := EvStore file_id (starting_entry file_name (time_time env)) in
  let reg1 := <[file_id := starting_entry file_name (time_time env)]> reg in
  match result (run (resolve env file_id file_name) reg) with
  | inl e =>
      run (try_block cfg env file_id file_name download_path) reg
        = mkOutcome reg1 [first] (inl (file_name, e))
  | inr (download_url, expected_size, name) =>
      let o2 := run (transfer env file_id name download_path download_url expected_size) reg1 in
      steady file_id 0 90 o2 /\
      match result o2 with
      | inl e =>
          run (try_block cfg env file_id file_name download_path) reg
            = mkOutcome (registry o2) (first :: trace o2) (inl (Some name, e))
      | inr (file_path, downloaded_size) =>
          exists d tr3,
            registry o2 !! file_id = Some d /\
            run (try_block cfg env file_id file_name download_path) reg
              = mkOutcome (<[file_id := completed_entry d file_path downloaded_size]> (registry o2))
                  (first :: trace o2 ++ tr3) (inr tt) /\
            started tr3 = [CleanupTask file_id] /\
            progress_writes file_id tr3 = [100] /\
            forall lvl msg r,
              run (refresh_plex cfg env) r = mkOutcome r [EvLog lvl msg] (inr tt) ->
              In (EvLog lvl msg) tr3
      end
  end.
Proof.
  intros first reg1.
  unfold try_block, mbind, thread_bind. rewrite run_bind, run_locals.
  cbn [result registry trace].
  destruct (run_resolve file_id file_name reg) as [R1 T1]. rewrite R1, T1.
  fold first reg1.
  destruct (result (run (resolve env file_id file_name) reg))
    as [e|[[download_url expected_size] name]]; [reflexivity|].
  rewrite run_locals, run_bind.
  pose proof (run_transfer file_id name download_path download_url expected_size reg1
                (starting_entry file_name (time_time env)) (lookup_insert_eq _ _ _)) as St.
  split; [exact St|].
  destruct St as ([d Hd] & _).
  destruct (result (run (transfer env file_id name download_path download_url expected_size) reg1))
    as [e|[file_path downloaded_size]]; [reflexivity|].
  destruct (run_finish file_id name file_path downloaded_size _ d Hd)
    as (tr3 & R3 & S3 & P3 & N3).
  exists d, tr3. rewrite R3. cbn [result registry trace]. repeat split; assumption.
Qed.

(** The whole task: the [try] block, then the [except] clause if it raised. *)
Lemma run_download_file_background file_id file_name download_path reg :
  run (download_file_background cfg env file_id file_name download_path) reg =
    let body := run (try_block cfg env file_id file_name download_path) reg in
    match result body with
    | inr _ => mkOutcome (registry body) (trace body) (inr tt)
    | inl (name, e) =>
        mkOutcome (<[file_id := error_entry name e]> (registry body))
          (trace body ++ [EvLog ERROR ("Background download failed: " +:+ e);
                          EvStore file_id (error_entry name e)])
          (inr tt)
    end.
Proof.
  unfold download_file_background. rewrite run_try_except.
  destruct (result (run (try_block cfg env file_id file_name download_path) reg))
    as [[name e]|[]]; reflexivity.
Qed.
End Phases.

(** ** The request handler *)

Section Handler.
Context (cfg : Config).

(** The directory line 221 selects. *)
Local Abbreviation destination data :=
  (if decide (req_contentType data = Some "series") then SERIES_PATH cfg else MOVIES_PATH cfg).

Lemma destination_eqb (data : RequestData) :
  (if String.eqb (default "movie" (req_contentType data)) "series"
   then SERIES_PATH cfg else MOVIES_PATH cfg) = destination data.
Proof.
  destruct (req_contentType data) as [c|]; cbn [default from_option id].
  - destruct (String.eqb_spec c "series") as [->|Hne].
    + rewrite decide_True by reflexivity. reflexivity.
    + rewrite decide_False by congruence. reflexivity.
  - rewrite decide_False by discriminate. reflexivity.
Qed.

Lemma falsy_nonempty (file_id : string) : file_id <> EmptyString -> falsy (Some file_id) = false.
Proof. destruct file_id; [congruence|reflexivity]. Qed.

Lemma run_download data reg file_id :
  req_fileId data = Some file_id -> file_id <> EmptyString ->
  run (download cfg (inr data)) reg =
    mkOutcome reg
      (EvLog INFO ("Downloading " +:+ str (req_fileName data) +:+ " as "
                   +:+ default "movie" (req_contentType data)
                   +:+ " to " +:+ destination data)
       :: match reg !! file_id with
          | Some _ => []
          | None => [EvStart (DownloadTask file_id (req_fileName data) (destination data))]
          end)
      (inr match reg !! file_id with
           | Some d =>
               AlreadyInProgress ("Download already in progress: " +:+ str (req_fileName data))
                 (status d) (progress d)
           | None => Started ("Download started: " +:+ str (req_fileName data)) file_id
           end).
Proof.
  intros Hid Hne. unfold download. norm. rewrite Hid, (falsy_nonempty _ Hne).
  rewrite destination_eqb. norm. cbn [str default from_option id].
  destruct (reg !! file_id) as [d|] eqn:Hd.
  - rewrite bool_decide_true by eauto. norm. rewrite Hd. reflexivity.
  - rewrite bool_decide_false by (intros [? ?]; congruence). reflexivity.
Qed.
End Handler.

(** ** Claims about one download task

    The task is run alone here ([run]): no other thread writes the entry of
    its file id meanwhile. Further on the task is run among threads that
    leave that entry alone, where it does the same. *)





(** A task run alone always returns, and leaves its entry in one of the
    two terminal states. *)
Lemma task_reaches_terminal_status cfg env file_id file_name download_path reg :
  let o := run (download_file_background cfg env file_id file_name download_path) reg in
  result o = inr tt /\
  exists d, registry o !! file_id = Some d /\ (status d = Completed \/ status d = Error).
Proof.
  cbn zeta. rewrite run_download_file_background. cbn zeta.
  pose proof (run_try_block cfg env file_id file_name download_path reg) as B.
  cbn zeta in B.
  destruct (result (run (resolve env file_id file_name) reg))
    as [e|[[download_url expected_size] name]].
  - rewrite B. cbn [result registry]. split; [reflexivity|].
    eexists. rewrite lookup_insert_eq. split; [reflexivity|]. right. reflexivity.
  - destruct B as [_ B].
    destruct (result (run (transfer env file_id name download_path download_url expected_size)
                        (<[file_id:=starting_entry file_name (time_time env)]> reg)))
      as [e|[file_path downloaded_size]].
    + rewrite B. cbn [result registry]. split; [reflexivity|].
      eexists. rewrite lookup_insert_eq. split; [reflexivity|]. right. reflexivity.
    + destruct B as (d & tr3 & _ & R & _). rewrite R. cbn [result registry].
      split; [reflexivity|].
      eexists. rewrite lookup_insert_eq. split; [reflexivity|]. left. reflexivity.
Qed.




(** C4 (amended). While [total_size] is not positive the loop over the
    chunks writes nothing to the registry: [progress] stays at the value
    set before streaming, and [downloadedSize] is not updated either; the
    bytes received are only counted in the local variable. *)
Theorem unknown_total_writes_nothing file_id total_size items downloaded_size reg :
  total_size <= 0 ->
  registry (run (stream_loop file_id total_size items downloaded_size) reg) = reg /\
  trace (run (stream_loop file_id total_size items downloaded_size) reg) = [].
Proof. intros Ht. apply stream_loop_unknown_total. exact Ht. Qed.


(** C10. The directory a begin-download request passes to the download
    thread, and logs, is [SERIES_PATH] when the request's [contentType] is
    the string "series", and [MOVIES_PATH] for every other value and when
    the field is missing. *)
Theorem content_type_selects_directory cfg data reg file_id :
  req_fileId data = Some file_id ->
  file_id <> EmptyString ->
  let o := run (download cfg (inr data)) reg in
  let download_path :=
    if decide (req_contentType data = Some "series") then SERIES_PATH cfg else MOVIES_PATH cfg in
  head (trace o)
    = Some (EvLog INFO ("Downloading " +:+ str (req_fileName data) +:+ " as "
                        +:+ default "movie" (req_contentType data)
                        +:+ " to " +:+ download_path)) /\
  (reg !! file_id = None ->
   started (trace o) = [DownloadTask file_id (req_fileName data) download_path]) /\
  forall t, In t (started (trace o)) -> t = DownloadTask file_id (req_fileName data) download_path.
Proof.
  intros Hid Hne o download_path. subst o.
  rewrite (run_download cfg data reg file_id Hid Hne). cbn [registry result trace].
  split; [reflexivity|]. split.
  - intros ->. reflexivity.
  - intros t. destruct (reg !! file_id); simpl; intros H; [contradiction|].
    destruct H as [H|[]]. symmetry. exact H.
Qed.

(** ** Threads interleaved: what keeps an entry in place *)

Section Safe.
Context (file_id : string).

Lemma safe_bind {E A B} (m : Thread E A) (f : A -> Thread E B) :
  safe file_id m -> (forall a, safe file_id (f a)) -> safe file_id (bind m f).
Proof.
  intros Hm Hf.
  induction m as [a|e|k v next IH|k fld next IH exc IHx|k next IH|k next IH exc IHx
                 |k next IH exc IHx|t next IH|secs next IH|lvl msg next IH];
    simpl in *; try tauto.
  - apply Hf.
  - destruct (decide (k = file_id)); [apply IH, Hm | intros b; apply IH, Hm].
  - destruct Hm as [Hn Hx]. split; [intros d; apply IH, Hn | intros Hk; apply IHx, Hx, Hk].
Qed.

Lemma safe_try_except {E E' A} (body : Thread E A) (handler : E -> Thread E' A) :
  safe file_id body -> (forall e, safe file_id (handler e)) ->
  safe file_id (try_except body handler).
Proof.
  intros Hm Hf.
  induction body as [a|e|k v next IH|k fld next IH exc IHx|k next IH|k next IH exc IHx
                    |k next IH exc IHx|t next IH|secs next IH|lvl msg next IH];
    simpl in *; try tauto.
  - apply Hf.
  - destruct (decide (k = file_id)); [apply IH, Hm | intros b; apply IH, Hm].
  - destruct Hm as [Hn Hx]. split; [intros d; apply IH, Hn | intros Hk; apply IHx, Hx, Hk].
Qed.

Lemma safe_call {A} (r : string + A) : safe file_id (call r).
Proof. destruct r; exact I. Qed.

Lemma safe_call_ (r : option string) : safe file_id (call_ r).
Proof. destruct r; exact I. Qed.

Lemma safe_subscript {A} k (v : option A) : safe file_id (subscript k v).
Proof. destruct v; exact I. Qed.

Lemma safe_set_item k f : k <> file_id -> safe file_id (set_item k f).
Proof. simpl. tauto. Qed.

Lemma safe_get_item k : safe file_id (get_item k).
Proof. simpl. tauto. Qed.

Lemma safe_log lvl msg : safe file_id (log lvl msg).
Proof. exact I. Qed.

(** Composite programs are handled by decomposition along [bind] and
    [try_except]. *)
Lemma safe_store k v : k <> file_id -> safe file_id (store k v).
Proof. simpl. tauto. Qed.

Lemma safe_start t : task_file_id t <> file_id -> safe file_id (start t).
Proof. simpl. tauto. Qed.

Ltac safe_tac :=
  repeat first
    [ exact I
    | assumption
    | apply safe_call | apply safe_call_ | apply safe_subscript
    | apply safe_log | apply safe_get_item
    | apply safe_set_item; assumption
    | apply safe_store; assumption
    | apply safe_start; assumption
    | apply safe_bind; [|intros]
    | apply safe_try_except; [|intros]
    | progress unfold mbind, thread_bind, mret, thread_ret, locals
    | match goal with
      | |- safe _ (let '(_, _) := ?x in _) => destruct x
      | |- safe _ (if ?b then _ else _) => destruct b
      | |- safe _ (match ?x with Some _ => _ | None => _ end) => destruct x
      end ].

Lemma safe_receive_chunk k total_size downloaded_size data write :
  k <> file_id -> safe file_id (receive_chunk k total_size downloaded_size data write).
Proof.
  intros Hk. unfold receive_chunk. destruct data; [exact I|].
  safe_tac.
Qed.

Lemma safe_stream_loop k total_size items :
  k <> file_id -> forall downloaded_size,
    safe file_id (stream_loop k total_size items downloaded_size).
Proof.
  intros Hk. induction items as [|[data write|e] items IH]; intros downloaded_size;
    cbn [stream_loop]; [exact I| |exact I].
  safe_tac; [apply safe_receive_chunk; assumption|apply IH].
Qed.

Lemma safe_cleanup k : k <> file_id -> safe file_id (cleanup k).
Proof.
  intros Hk. unfold cleanup. cbn. rewrite decide_False by exact Hk.
  intros [|]; cbn; tauto.
Qed.

Lemma safe_download_file_background cfg env k file_name download_path :
  k <> file_id -> safe file_id (download_file_background cfg env k file_name download_path).
Proof.
  intros Hk. unfold download_file_background, try_block, resolve, transfer, finish,
    set_permissions, refresh_plex, except_clause.
  safe_tac. apply safe_stream_loop. exact Hk.
Qed.

Lemma safe_program cfg env t : task_file_id t <> file_id -> safe file_id (program cfg env t).
Proof.
  destruct t; simpl; intros Hk;
    [apply safe_download_file_background | apply safe_cleanup]; exact Hk.
Qed.

(** A request handler is safe whatever it asks for: for [file_id] itself
    it finds the entry and only reads it. *)
Lemma safe_download cfg request_json : safe file_id (download cfg request_json).
Proof.
  unfold download. apply safe_try_except; [|intros; safe_tac].
  unfold mbind, thread_bind, mret, thread_ret.
  apply safe_bind; [apply safe_call|intros data].
  destruct (falsy (req_fileId data)); [exact I|].
  apply safe_bind; [apply safe_log|intros _].
  cbn [bind contains safe].
  destruct (decide (str (req_fileId data) = file_id)) as [Heq|Hne].
  - safe_tac.
  - intros [|]; safe_tac.
Qed.

(** One step of a safe thread, with the entry in the registry. *)
Lemma safe_step {E A} (t : Thread E A) (reg : Registry) :
  safe file_id t -> is_Some (reg !! file_id) ->
  match thread_step t reg with
  | Finished _ => True
  | Continue reg' started _ next =>
      reg' !! file_id = reg !! file_id /\ safe file_id next /\
      forall t', started = Some t' -> task_file_id t' <> file_id
  end.
Proof.
  intros Hs Hin. destruct t; simpl in *; try exact I.
  - destruct Hs as [Hk Hs]. rewrite lookup_insert_ne by exact Hk. repeat split; [exact Hs|discriminate].
  - destruct Hs as (Hk & Hn & Hx).
    destruct (reg !! k); [rewrite lookup_insert_ne by exact Hk|]; repeat split;
      try assumption; discriminate.
  - repeat split; [|discriminate].
    destruct (decide (k = file_id)) as [->|Hk]; [|apply Hs].
    rewrite bool_decide_true by exact Hin. exact Hs.
  - destruct Hs as [Hn Hx].
    destruct (reg !! k) eqn:Hlk; repeat split; try discriminate; [apply Hn|].
    apply Hx. intros ->. rewrite Hlk in Hin. destruct Hin as [? ?]. discriminate.
  - destruct Hs as (Hk & Hn & Hx).
    destruct (reg !! k); [rewrite lookup_delete_ne by exact Hk|]; repeat split;
      try assumption; discriminate.
  - destruct Hs as [Hk Hs]. repeat split; [exact Hs|]. intros t' [= <-]. exact Hk.
  - repeat split; [exact Hs|discriminate].
  - repeat split; [exact Hs|discriminate].
Qed.

Lemma safe_spawn cfg env now started :
  (forall t', started = Some t' -> task_file_id t' <> file_id) ->
  Forall (fun w : nat * Thread string unit => safe file_id w.2) (spawn cfg env now started).
Proof.
  intros H. destruct started as [t'|]; simpl; [|constructor].
  constructor; [|constructor]. simpl. apply safe_program, H. reflexivity.
Qed.

(** A step of the process keeps an entry no thread is about to touch. *)
Lemma sys_step_keeps cfg l s s' d :
  active_downloads s !! file_id = Some d -> quiescent file_id s ->
  sys_step cfg l s = Some s' ->
  active_downloads s' !! file_id = Some d /\ quiescent file_id s'.
Proof.
  intros Hd [Hh Hw] Hstep. destruct l as [request_json|i env|i env|]; simpl in Hstep.
  - injection Hstep as <-. simpl. split; [exact Hd|]. split; [|exact Hw].
    apply Forall_app. split; [exact Hh|]. constructor; [apply safe_download|constructor].
  - destruct (handlers s !! i) as [t|] eqn:Hi; [|discriminate].
    assert (Ht : safe file_id t) by (eapply Forall_lookup_1; eassumption).
    pose proof (safe_step t (active_downloads s) Ht ltac:(eauto)) as Hs.
    destruct (thread_step t (active_downloads s)) as [r|reg' started delay next].
    + injection Hstep as <-. simpl. split; [exact Hd|]. split; [|exact Hw].
      apply Forall_delete. exact Hh.
    + injection Hstep as <-. simpl. destruct Hs as (Hr & Hn & Hsp).
      split; [rewrite Hr; exact Hd|]. split.
      * apply Forall_insert; assumption.
      * apply Forall_app. split; [exact Hw|]. apply safe_spawn. exact Hsp.
  - destruct (workers s !! i) as [[wake t]|] eqn:Hi; [|discriminate].
    destruct (decide (wake <= clock s)%nat); [|discriminate].
    assert (Ht : safe file_id t) by (apply (Forall_lookup_1 _ _ _ _ Hw Hi)).
    pose proof (safe_step t (active_downloads s) Ht ltac:(eauto)) as Hs.
    destruct (thread_step t (active_downloads s)) as [r|reg' started delay next].
    + injection Hstep as <-. simpl. split; [exact Hd|]. split; [exact Hh|].
      apply Forall_delete. exact Hw.
    + injection Hstep as <-. simpl. destruct Hs as (Hr & Hn & Hsp).
      split; [rewrite Hr; exact Hd|]. split; [exact Hh|].
      apply Forall_app. split; [apply Forall_insert; assumption|].
      apply safe_spawn. exact Hsp.
  - injection Hstep as <-. simpl. split; [exact Hd|]. split; assumption.
Qed.

Lemma exec_keeps cfg ls : forall s s' d,
  active_downloads s !! file_id = Some d -> quiescent file_id s ->
  exec cfg ls s = Some s' ->
  active_downloads s' !! file_id = Some d /\ quiescent file_id s'.
Proof.
  induction ls as [|l ls IH]; intros s s' d Hd Hq Hex; simpl in Hex.
  - injection Hex as <-. split; assumption.
  - destruct (sys_step cfg l s) as [s1|] eqn:Hstep; [|discriminate].
    destruct (sys_step_keeps cfg l s s1 d Hd Hq Hstep) as [Hd1 Hq1].
    eapply IH; eassumption.
Qed.

Lemma unsafe_download_file_background cfg env file_name download_path :
  ~ safe file_id (download_file_background cfg env file_id file_name download_path).
Proof. cbn. intros [H _]. apply H. reflexivity. Qed.
End Safe.

(** C9 (amended). While no thread of the process is about to touch the
    entry of a file id (no download or cleanup thread for that id, and no
    request for it that found the registry without the entry), a failed
    entry stays in the registry as it is through every execution, no
    download thread for the id is ever started, and every begin-download
    request for the id is answered with the failed entry's status and
    progress and starts nothing. *)
Theorem failed_entry_persists_when_quiescent cfg file_id d ls s s' :
  active_downloads s !! file_id = Some d ->
  status d = Error ->
  quiescent file_id s ->
  exec cfg ls s = Some s' ->
  active_downloads s' !! file_id = Some d /\
  quiescent file_id s' /\
  (forall wake env file_name download_path,
     ~ In (wake, download_file_background cfg env file_id file_name download_path) (workers s')) /\
  forall data,
    req_fileId data = Some file_id -> file_id <> EmptyString ->
    let o := run (download cfg (inr data)) (active_downloads s') in
    registry o = active_downloads s' /\
    result o = inr (AlreadyInProgress
                      ("Download already in progress: " +:+ str (req_fileName data))
                      Error (progress d)) /\
    started (trace o) = [].
Proof.
  intros Hd Hst Hq Hex.
  destruct (exec_keeps file_id cfg ls s s' d Hd Hq Hex) as [Hd' Hq'].
  split; [exact Hd'|]. split; [exact Hq'|]. split.
  - intros wake env file_name download_path Hin.
    destruct Hq' as [_ Hw]. rewrite Forall_forall in Hw.
    apply list_elem_of_In, Hw in Hin. simpl in Hin.
    exact (unsafe_download_file_background file_id cfg env file_name download_path Hin).
  - intros data Hid Hne o. subst o.
    rewrite (run_download cfg data _ file_id Hid Hne), Hd', Hst.
    repeat split; reflexivity.
Qed.

(** ** A download task among threads that leave its entry alone *)

Section Own.
Context (file_id : string).

(** As long as the other threads do not change the entry of [file_id], a
    thread that works on that entry only does among them what it does
    alone: same trace, same result, same entry in the end. *)
Lemma run_among_alone {E A} (others : nat -> Registry -> Registry) (t : Thread E A) :
  own file_id t ->
  (forall n reg, others n reg !! file_id = reg !! file_id) ->
  forall n reg reg',
    reg !! file_id = reg' !! file_id ->
    registry (run_among others n t reg) !! file_id = registry (run t reg') !! file_id /\
    trace (run_among others n t reg) = trace (run t reg') /\
    result (run_among others n t reg) = result (run t reg').
Proof.
  intros Hown Hothers.
  induction t as [a|e|k v next IH|k fld next IH exc IHx|k next IH|k next IH exc IHx
                 |k next IH exc IHx|t next IH|secs next IH|lvl msg next IH];
    intros n reg reg' Heq; cbn [run run_among]; cbn [own] in Hown.
  - cbn [registry trace result]. rewrite Hothers. repeat split. exact Heq.
  - cbn [registry trace result]. rewrite Hothers. repeat split. exact Heq.
  - destruct Hown as [-> Hn].
    destruct (IH Hn (S n) (<[file_id:=v]> (others n reg)) (<[file_id:=v]> reg')) as (H1 & H2 & H3).
    { rewrite !lookup_insert_eq. reflexivity. }
    cbn [emit registry trace result]. rewrite H1, H2, H3. repeat split.
  - destruct Hown as (-> & Hn & Hx). rewrite Hothers, Heq.
    destruct (reg' !! file_id) as [d|] eqn:Hr.
    + destruct (IH Hn (S n) (<[file_id:=set_field fld d]> (others n reg))
                  (<[file_id:=set_field fld d]> reg')) as (H1 & H2 & H3).
      { rewrite !lookup_insert_eq. reflexivity. }
      cbn [emit registry trace result]. rewrite H1, H2, H3. repeat split.
    + apply (IHx Hx). rewrite Hothers. congruence.
  - destruct Hown as [-> Hn]. rewrite Hothers, Heq.
    apply (IH _ (Hn _)). rewrite Hothers. congruence.
  - destruct Hown as (-> & Hn & Hx). rewrite Hothers, Heq.
    destruct (reg' !! file_id) as [d|] eqn:Hr.
    + apply (IH _ (Hn _)). rewrite Hothers. congruence.
    + apply (IHx Hx). rewrite Hothers. congruence.
  - destruct Hown as (-> & Hn & Hx). rewrite Hothers, Heq.
    destruct (reg' !! file_id) as [d|] eqn:Hr.
    + destruct (IH Hn (S n) (delete file_id (others n reg)) (delete file_id reg'))
        as (H1 & H2 & H3).
      { rewrite !lookup_delete_eq. reflexivity. }
      cbn [emit registry trace result]. rewrite H1, H2, H3. repeat split.
    + apply (IHx Hx). rewrite Hothers. congruence.
  - destruct (IH Hown (S n) (others n reg) reg') as (H1 & H2 & H3).
    { rewrite Hothers. congruence. }
    cbn [emit registry trace result]. rewrite H1, H2, H3. repeat split.
  - destruct (IH Hown (S n) (others n reg) reg') as (H1 & H2 & H3).
    { rewrite Hothers. congruence. }
    cbn [emit registry trace result]. rewrite H1, H2, H3. repeat split.
  - destruct (IH Hown (S n) (others n reg) reg') as (H1 & H2 & H3).
    { rewrite Hothers. congruence. }
    cbn [emit registry trace result]. rewrite H1, H2, H3. repeat split.
Qed.

Lemma own_bind {E A B} (m : Thread E A) (f : A -> Thread E B) :
  own file_id m -> (forall a, own file_id (f a)) -> own file_id (bind m f).
Proof.
  intros Hm Hf.
  induction m as [a|e|k v next IH|k fld next IH exc IHx|k next IH|k next IH exc IHx
                 |k next IH exc IHx|t next IH|secs next IH|lvl msg next IH];
    simpl in *; try tauto.
  - apply Hf.
  - destruct Hm as [Hk Hn]. split; [exact Hk|]. intros b. apply IH, Hn.
  - destruct Hm as (Hk & Hn & Hx). split; [exact Hk|]. split; [|apply IHx, Hx].
    intros d. apply IH, Hn.
Qed.

Lemma own_try_except {E E' A} (body : Thread E A) (handler : E -> Thread E' A) :
  own file_id body -> (forall e, own file_id (handler e)) -> own file_id (try_except body handler).
Proof.
  intros Hm Hf.
  induction body as [a|e|k v next IH|k fld next IH exc IHx|k next IH|k next IH exc IHx
                    |k next IH exc IHx|t next IH|secs next IH|lvl msg next IH];
    simpl in *; try tauto.
  - apply Hf.
  - destruct Hm as [Hk Hn]. split; [exact Hk|]. intros b. apply IH, Hn.
  - destruct Hm as (Hk & Hn & Hx). split; [exact Hk|]. split; [|apply IHx, Hx].
    intros d. apply IH, Hn.
Qed.

Lemma own_call {A} (r : string + A) : own file_id (call r).
Proof. destruct r; exact I. Qed.

Lemma own_call_ (r : option string) : own file_id (call_ r).
Proof. destruct r; exact I. Qed.

Lemma own_subscript {A} k (v : option A) : own file_id (subscript k v).
Proof. destruct v; exact I. Qed.

Lemma own_set_item f : own file_id (set_item file_id f).
Proof. simpl. tauto. Qed.

Lemma own_store v : own file_id (store file_id v).
Proof. simpl. tauto. Qed.

Ltac own_tac :=
  repeat first
    [ exact I
    | apply own_bind; [|intros]
    | apply own_try_except; [|intros]
    | simple apply own_call | simple apply own_call_ | simple apply own_subscript
    | simple apply own_set_item | simple apply own_store
    | progress unfold mbind, thread_bind, mret, thread_ret, locals
    | match goal with
      | |- own _ (let '(_, _) := ?x in _) => destruct x
      | |- own _ (if ?b then _ else _) => destruct b
      | |- own _ (match ?x with Some _ => _ | None => _ end) => destruct x
      end ].

Lemma own_stream_loop total_size items :
  forall downloaded_size, own file_id (stream_loop file_id total_size items downloaded_size).
Proof.
  induction items as [|[data write|e] items IH]; intros downloaded_size;
    cbn [stream_loop]; [exact I| |exact I].
  own_tac; [|apply IH]. unfold receive_chunk. destruct data; own_tac.
Qed.

(** A download task works on the entry of its own file id only. *)
Lemma own_download_file_background cfg env file_name download_path :
  own file_id (download_file_background cfg env file_id file_name download_path).
Proof.
  unfold download_file_background, try_block, resolve, transfer, finish,
    set_permissions, refresh_plex, except_clause, start, log.
  own_tac. apply own_stream_loop.
Qed.



Lemma own_download_progress : own file_id (download_progress file_id).
Proof.
  unfold download_progress. apply own_try_except; [|intros; simpl; tauto].
  simpl. split; [reflexivity|]. intros [|]; simpl; tauto.
Qed.

(** X6. A download task run while other threads change the registry, but
    not the entry of its file id, has the trace and the result it has when
    run alone, and leaves the same entry: what is proved of a task run
    alone holds of it there. *)
Lemma download_among_alone cfg env file_name download_path others n reg :
  (forall n reg, others n reg !! file_id = reg !! file_id) ->
  let among := run_among others n
                 (download_file_background cfg env file_id file_name download_path) reg in
  let alone := run (download_file_background cfg env file_id file_name download_path) reg in
  registry among !! file_id = registry alone !! file_id /\
  trace among = trace alone /\
  result among = result alone.
Proof.
  intros Hothers. apply run_among_alone;
    [apply own_download_file_background | exact Hothers | reflexivity].
Qed.
End Own.

Section Among.
Context (file_id : string) (others : nat -> Registry -> Registry).
Hypothesis others_leave_entry : forall n reg, others n reg !! file_id = reg !! file_id.

(** A thread that works on the entry of [file_id] only, among threads that
    leave that entry alone, from the same registry. *)
Lemma among_alone {E A} (t : Thread E A) k reg :
  own file_id t ->
  registry (run_among others k t reg) !! file_id = registry (run t reg) !! file_id /\
  trace (run_among others k t reg) = trace (run t reg) /\
  result (run_among others k t reg) = result (run t reg).
Proof.
  intros Hown. apply (run_among_alone file_id); [exact Hown|exact others_leave_entry|reflexivity].
Qed.
End Among.

(** * Further properties *)

(** ** A download task and the rest of the registry *)

Lemma own_frame {E A} file_id (t : Thread E A) k :
  own file_id t -> k <> file_id ->
  forall reg, registry (run t reg) !! k = reg !! k.
Proof.
  intros Hown Hk.
  induction t as [a|e|k' v next IH|k' fld next IH exc IHx|k' next IH|k' next IH exc IHx
                 |k' next IH exc IHx|t next IH|secs next IH|lvl msg next IH];
    intros reg; cbn [run own emit registry] in *.
  - reflexivity.
  - reflexivity.
  - destruct Hown as [-> Hn]. rewrite (IH Hn). apply lookup_insert_ne. congruence.
  - destruct Hown as (-> & Hn & Hx). destruct (reg !! file_id).
    + cbn [emit registry]. rewrite (IH Hn). apply lookup_insert_ne. congruence.
    + apply (IHx Hx).
  - destruct Hown as [-> Hn]. apply (IH _ (Hn _)).
  - destruct Hown as (-> & Hn & Hx). destruct (reg !! file_id); [apply (IH _ (Hn _))|apply (IHx Hx)].
  - destruct Hown as (-> & Hn & Hx). destruct (reg !! file_id).
    + cbn [emit registry]. rewrite (IH Hn). apply lookup_delete_ne. congruence.
    + apply (IHx Hx).
  - apply (IH Hown).
  - apply (IH Hown).
  - apply (IH Hown).
Qed.

(** X5. A download task leaves the entries of all other file ids as they
    are: it neither creates, changes nor removes them. *)
Theorem download_task_frame cfg env file_id file_name download_path reg k :
  k <> file_id ->
  registry (run (download_file_background cfg env file_id file_name download_path) reg) !! k
    = reg !! k.
Proof.
  intros Hk. apply (own_frame file_id); [apply own_download_file_background|exact Hk].
Qed.

(** ** The loop over the chunks *)

Lemma run_receive_chunk file_id total_size downloaded_size b data reg d :
  reg !! file_id = Some d ->
  run (receive_chunk file_id total_size downloaded_size (b :: data) None) reg
  = let n := downloaded_size + Z.of_nat (length (b :: data)) in
    if decide (0 < total_size) then
      let p := progress_percent n total_size in
      mkOutcome (<[file_id := streaming_entry d total_size n]> reg)
        [EvSetItem file_id (FProgress p);
         EvSetItem file_id (FMessage ("Downloading... " +:+ pretty (p - 10) +:+ "%"));
         EvSetItem file_id (FDownloadedSize n)]
        (inr n)
    else mkOutcome reg [] (inr n).
Proof.
  intros Hd. unfold receive_chunk. cbv zeta.
  destruct (decide (0 < total_size)) as [Ht|Ht].
  - rewrite bool_decide_true by exact Ht. exec. rewrite !insert_insert_eq. reflexivity.
  - rewrite bool_decide_false by exact Ht. norm. reflexivity.
Qed.

(** The loop over a stream received in two parts. *)
Lemma run_stream_loop_app file_id total_size items1 items2 :
  forall downloaded_size reg,
    run (stream_loop file_id total_size (items1 ++ items2) downloaded_size) reg =
      let o1 := run (stream_loop file_id total_size items1 downloaded_size) reg in
      match result o1 with
      | inl e => o1
      | inr n => prepend (trace o1) (run (stream_loop file_id total_size items2 n) (registry o1))
      end.
Proof.
  induction items1 as [|item items1 IH]; intros downloaded_size reg; cbv zeta.
  - cbn [app stream_loop mret thread_ret run result trace registry].
    destruct (run _ reg); reflexivity.
  - destruct item as [data write|e]; [|reflexivity].
    cbn [app stream_loop]. unfold mbind, thread_bind. rewrite !run_bind.
    destruct (run (receive_chunk file_id total_size downloaded_size data write) reg)
      as [reg1 tr1 [e|n]]; cbn [result registry trace]; [reflexivity|].
    rewrite IH. cbv zeta.
    destruct (run (stream_loop file_id total_size items1 n) reg1) as [reg2 tr2 [e|m]];
      cbn [result registry trace prepend]; [reflexivity|].
    rewrite app_assoc. reflexivity.
Qed.

Lemma bytes_received_nonneg items : 0 <= bytes_received items.
Proof.
  induction items as [|[data write|e] items IH]; simpl; lia.
Qed.

Lemma run_stream_loop_delivered file_id total_size items :
  forall downloaded_size reg d,
    reg !! file_id = Some d ->
    forallb delivered items = true ->
    let o := run (stream_loop file_id total_size items downloaded_size) reg in
    let received := bytes_received items in
    result o = inr (downloaded_size + received) /\
    registry o = (if decide (0 < total_size /\ 0 < received)
                  then <[file_id := streaming_entry d total_size (downloaded_size + received)]> reg
                  else reg).
Proof.
  induction items as [|item items IH]; intros downloaded_size reg d Hd Hall; cbv zeta.
  - cbn. rewrite Z.add_0_r. split; [reflexivity|].
    rewrite decide_False by lia. reflexivity.
  - cbn [forallb] in Hall. apply andb_prop in Hall as [Hitem Hall].
    destruct item as [data write|e]; [|discriminate].
    cbn [stream_loop bytes_received foldr chunk_length]. fold (bytes_received items).
    pose proof (bytes_received_nonneg items) as Hnn.
    unfold mbind, thread_bind. rewrite run_bind.
    destruct data as [|b data].
    + cbn [receive_chunk mret thread_ret run result registry trace length].
      destruct (IH downloaded_size reg d Hd Hall) as [R1 R2]. rewrite R1, R2.
      cbn [result registry]. change (Z.of_nat 0) with 0. rewrite Z.add_0_l.
      split; reflexivity.
    + destruct write as [e|]; [discriminate|].
      rewrite (run_receive_chunk _ _ _ _ _ _ _ Hd). cbv zeta.
      set (n := downloaded_size + Z.of_nat (length (b :: data))).
      assert (Hlen : 0 < Z.of_nat (length (b :: data))) by (simpl length; lia).
      destruct (decide (0 < total_size)) as [Ht|Ht]; cbn [result registry trace].
      * destruct (IH n (<[file_id := streaming_entry d total_size n]> reg)
                    (streaming_entry d total_size n) (lookup_insert_eq _ _ _) Hall) as [R1 R2].
        rewrite R1, R2. cbn [result registry].
        replace (downloaded_size + (Z.of_nat (length (b :: data)) + bytes_received items))
          with (n + bytes_received items) by (unfold n; lia).
        split; [reflexivity|].
        rewrite (decide_True (P := 0 < total_size /\ 0 < Z.of_nat _ + _)) by lia.
        destruct (decide (0 < total_size /\ 0 < bytes_received items)) as [H|H].
        -- rewrite insert_insert_eq. reflexivity.
        -- assert (bytes_received items = 0) as -> by lia. rewrite Z.add_0_r. reflexivity.
      * destruct (IH n reg d Hd Hall) as [R1 R2]. rewrite R1, R2. cbn [result registry].
        replace (downloaded_size + (Z.of_nat (length (b :: data)) + bytes_received items))
          with (n + bytes_received items) by (unfold n; lia).
        split; [reflexivity|].
        rewrite !decide_False by lia. reflexivity.
Qed.

(** X12. When every chunk of the stream arrives and is written, the loop
    returns the byte count it started from plus the bytes of all chunks.
    If the total size is positive and bytes were received, the entry ends
    with the progress, the message and the [downloadedSize] of that final
    count; otherwise the registry is as it was. *)
Theorem stream_loop_delivers file_id total_size items downloaded_size reg d :
  reg !! file_id = Some d ->
  forallb delivered items = true ->
  let o := run (stream_loop file_id total_size items downloaded_size) reg in
  let received := bytes_received items in
  result o = inr (downloaded_size + received) /\
  registry o = (if decide (0 < total_size /\ 0 < received)
                then <[file_id := streaming_entry d total_size (downloaded_size + received)]> reg
                else reg).
Proof. apply run_stream_loop_delivered. Qed.

(** X13. Empty chunks change nothing: the loop over a stream does what it
    does over the same stream without its empty chunks. *)
Theorem stream_loop_skips_empty_chunks file_id total_size items :
  forall downloaded_size reg,
    run (stream_loop file_id total_size (base.filter (fun item => keep_alive item = false) items)
           downloaded_size) reg
    = run (stream_loop file_id total_size items downloaded_size) reg.
Proof.
  induction items as [|item items IH]; intros downloaded_size reg; [reflexivity|].
  destruct item as [[|b data] write|e].
  - rewrite filter_cons_False by (simpl; congruence).
    cbn [stream_loop receive_chunk]. unfold mbind, thread_bind, mret, thread_ret.
    cbn [bind]. apply IH.
  - rewrite filter_cons_True by reflexivity.
    cbn [stream_loop]. unfold mbind, thread_bind. rewrite !run_bind.
    destruct (run (receive_chunk _ _ _ _ _) reg) as [reg1 tr1 [e|n]];
      cbn [result registry trace]; [reflexivity|].
    rewrite IH. reflexivity.
  - rewrite filter_cons_True by reflexivity. reflexivity.
Qed.

(** X14. The loop stops at the first item that raises, a transport error
    or a failed write: it raises that exception, the failing chunk is not
    counted, no later chunk is looked at, and the registry is what the
    chunks before it made it. *)
Theorem stream_loop_stops_at_failure file_id total_size before item rest e downloaded_size reg d :
  reg !! file_id = Some d ->
  forallb delivered before = true ->
  failure item = Some e ->
  let o := run (stream_loop file_id total_size (before ++ item :: rest) downloaded_size) reg in
  let o1 := run (stream_loop file_id total_size before downloaded_size) reg in
  result o = inl e /\ registry o = registry o1 /\ trace o = trace o1.
Proof.
  intros Hd Hall Hfail. cbv zeta.
  rewrite run_stream_loop_app. cbv zeta.
  destruct (run_stream_loop_delivered file_id total_size before downloaded_size reg d Hd Hall)
    as [R1 _].
  rewrite R1. unfold prepend.
  assert (Hrun : forall n reg',
            run (stream_loop file_id total_size (item :: rest) n) reg' = mkOutcome reg' [] (inl e)).
  { intros n reg'. destruct item as [[|b data] [e'|]|e']; try discriminate.
    - injection Hfail as ->. reflexivity.
    - injection Hfail as ->. reflexivity. }
  rewrite Hrun. cbn [result registry trace]. rewrite app_nil_r. repeat split.
Qed.

(** ** The percentage and its message *)

Lemma progress_percent_full n t : 0 < t -> t <= n -> progress_percent n t = 90.
Proof.
  intros Ht Hn. rewrite progress_percent_eighty.
  assert (H : eighty 1 <= eighty (inject_Z n / inject_Z t)).
  { apply eighty_mono; [discriminate|].
    apply Qle_shift_div_l.
    - change 0%Q with (inject_Z 0). rewrite <- Zlt_Qlt. exact Ht.
    - rewrite Qmult_1_l. rewrite <- Zle_Qle. exact Hn. }
  rewrite eighty_one in H. lia.
Qed.

(** X15. During the transfer the progress is 90 as soon as the bytes
    received reach the total size, whatever the sizes; for totals up to
    [2^46] bytes it is below 90 as long as bytes are missing. *)
Theorem progress_90_when_all_bytes_received n t :
  0 <= n -> 0 < t ->
  (t <= n -> progress_percent n t = 90) /\
  (t <= 2 ^ 46 -> n < t -> progress_percent n t < 90).
Proof.
  intros Hn Ht. split.
  - apply progress_percent_full. exact Ht.
  - intros Hb Hlt. rewrite progress_percent_exact_agrees by lia.
    unfold progress_percent_exact.
    assert (n * 80 / t < 80) by (apply Z.div_lt_upper_bound; lia).
    lia.
Qed.



(** ** A download that succeeds, and the ways it fails *)

Section Success.
Context (cfg : Config) (env : Env).

Lemma run_resolve_found file_id file_name reg info download_url name :
  initiate_download env file_id = inr info ->
  downloadUrl info = Some download_url ->
  (if falsy file_name then info_fileName info else file_name) = Some name ->
  result (run (resolve env file_id file_name) reg)
    = inr (download_url, default 0 (fileSize info), name).
Proof.
  intros Hinfo Hurl Hname. unfold resolve. norm. rewrite Hinfo. norm. rewrite Hurl. norm.
  destruct (falsy file_name).
  - rewrite Hname. reflexivity.
  - rewrite Hname. reflexivity.
Qed.

Lemma run_transfer_delivered file_id name download_path download_url expected_size reg d
    response total_size :
  reg !! file_id = Some d ->
  makedirs env download_path = None ->
  session_get env download_url = inr response ->
  raise_for_status response = None ->
  match content_length response with
  | Some r => r = inr total_size
  | None => total_size = expected_size
  end ->
  open_wb env (os_path_join download_path name) = None ->
  forallb delivered (iter_content response) = true ->
  let o := run (transfer env file_id name download_path download_url expected_size) reg in
  let received := bytes_received (iter_content response) in
  result o = inr (os_path_join download_path name, received) /\
  registry o !! file_id
    = Some (if decide (0 < total_size /\ 0 < received)
            then streaming_entry (connected_entry d total_size) total_size received
            else connected_entry d total_size).
Proof.
  intros Hd Hmk Hget Hst Hlen Hopen Hall. cbv zeta.
  unfold transfer. norm. rewrite Hmk. norm. rewrite Hd. norm. rewrite Hget. norm.
  rewrite Hst. norm.
  destruct (content_length response) as [r|]; [subst r|subst expected_size]; norm;
    rewrite Hopen; norm.
  all: unfold mret, thread_ret, mbind, thread_bind.
  all: rewrite !insert_insert_eq.
  all: fold (connected_entry d total_size).
  all: rewrite (run_bind_ret _ (fun n => (os_path_join download_path name, n))).
  all: destruct (run_stream_loop_delivered file_id total_size (iter_content response) 0
              (<[file_id := connected_entry d total_size]> reg) (connected_entry d total_size)
              (lookup_insert_eq _ _ _) Hall) as [R1 R2].
  all: cbv zeta in R1, R2; rewrite Z.add_0_l in R1, R2.
  all: cbn [result registry trace]; rewrite R1, R2; split; [reflexivity|].
  all: destruct (decide _); [rewrite insert_insert_eq|]; apply lookup_insert_eq.
Qed.

Lemma run_successful_download file_id file_name download_path reg info download_url name
    response total_size :
  initiate_download env file_id = inr info ->
  downloadUrl info = Some download_url ->
  (if falsy file_name then info_fileName info else file_name) = Some name ->
  makedirs env download_path = None ->
  session_get env download_url = inr response ->
  raise_for_status response = None ->
  match content_length response with
  | Some r => r = inr total_size
  | None => total_size = default 0 (fileSize info)
  end ->
  open_wb env (os_path_join download_path name) = None ->
  forallb delivered (iter_content response) = true ->
  let received := bytes_received (iter_content response) in
  let o := run (download_file_background cfg env file_id file_name download_path) reg in
  result o = inr tt /\
  started (trace o) = [CleanupTask file_id] /\
  registry o !! file_id
    = Some {| status := Completed; fileName := file_name; progress := 100;
              message := "Download completed!"; startTime := Some (time_time env);
              totalSize := Some total_size;
              downloadedSize := if decide (0 < total_size /\ 0 < received)
                                then Some received else None;
              filePath := Some (os_path_join download_path name);
              finalSize := Some received; error := None |}.
Proof.
  intros Hinfo Hurl Hname Hmk Hget Hst Hlen Hopen Hall. cbv zeta.
  pose proof (run_resolve_found file_id file_name reg info download_url name Hinfo Hurl Hname)
    as R1.
  pose proof (run_try_block cfg env file_id file_name download_path reg) as B.
  cbv zeta in B. rewrite R1 in B. destruct B as [(_ & S2 & _) B].
  destruct (run_transfer_delivered file_id name download_path download_url
              (default 0 (fileSize info))
              (<[file_id := starting_entry file_name (time_time env)]> reg)
              (starting_entry file_name (time_time env)) response total_size
              (lookup_insert_eq _ _ _) Hmk Hget Hst Hlen Hopen Hall) as [R2 E2].
  cbv zeta in R2, E2. rewrite R2 in B. destruct B as (d & tr3 & Hd & R & S3 & _).
  rewrite E2 in Hd. injection Hd as <-.
  rewrite run_download_file_background. cbv zeta. rewrite R. cbn [result registry trace].
  split; [reflexivity|]. split.
  - change (started (?x :: ?l)) with (started l). rewrite started_app, S2, S3. reflexivity.
  - rewrite lookup_insert_eq. destruct (decide _); reflexivity.
Qed.


(** X8. The path of a completed download is [os.path.join] of the
    directory and the file name: the directory, a slash and the name when
    the name is relative, and the name alone when it starts with a slash,
    in which case the download directory is not used. *)
Theorem file_path_of_download file_id file_name download_path reg info download_url name
    response total_size :
  initiate_download env file_id = inr info ->
  downloadUrl info = Some download_url ->
  (if falsy file_name then info_fileName info else file_name) = Some name ->
  makedirs env download_path = None ->
  session_get env download_url = inr response ->
  raise_for_status response = None ->
  match content_length response with
  | Some r => r = inr total_size
  | None => total_size = default 0 (fileSize info)
  end ->
  open_wb env (os_path_join download_path name) = None ->
  forallb delivered (iter_content response) = true ->
  let o := run (download_file_background cfg env file_id file_name download_path) reg in
  exists d,
    registry o !! file_id = Some d /\
    (String.prefix "/" name = true -> filePath d = Some name) /\
    (String.prefix "/" name = false -> download_path <> EmptyString ->
     endswith_slash download_path = false ->
     filePath d = Some (download_path +:+ "/" +:+ name)).
Proof.
  intros Hinfo Hurl Hname Hmk Hget Hst Hlen Hopen Hall. cbv zeta.
  destruct (run_successful_download file_id file_name download_path reg info download_url
              name response total_size Hinfo Hurl Hname Hmk Hget Hst Hlen Hopen Hall)
    as (_ & _ & Hd).
  eexists. split; [exact Hd|]. cbn [filePath]. unfold os_path_join. split.
  - intros ->. reflexivity.
  - intros -> Hne Hsl. rewrite Hsl.
    destruct (String.eqb_spec download_path EmptyString); [contradiction|]. reflexivity.
Qed.

(** X9. When the metadata lacks the download URL, or the request gave no
    file name and the metadata lacks it too, the task fails with the text
    of the [KeyError], the key in quotes: it returns, starts no thread and
    leaves a failed entry with that error and the request's file name. *)
Theorem missing_metadata_key_fails file_id file_name download_path reg info key :
  initiate_download env file_id = inr info ->
  (downloadUrl info = None /\ key = "downloadUrl") \/
  (is_Some (downloadUrl info) /\ falsy file_name = true /\ info_fileName info = None
   /\ key = "fileName") ->
  let o := run (download_file_background cfg env file_id file_name download_path) reg in
  result o = inr tt /\
  registry o = <[file_id := error_entry file_name ("'" +:+ key +:+ "'")]> reg /\
  started (trace o) = [].
Proof.
  intros Hinfo Hkey. cbv zeta.
  assert (R1 : result (run (resolve env file_id file_name) reg) = inl ("'" +:+ key +:+ "'")).
  { unfold resolve. norm. rewrite Hinfo. norm.
    destruct Hkey as [[Hurl ->]|([url Hurl] & Hf & Hname & ->)]; rewrite Hurl; norm.
    - reflexivity.
    - rewrite Hf, Hname. reflexivity. }
  pose proof (run_try_block cfg env file_id file_name download_path reg) as B.
  cbv zeta in B. rewrite R1 in B.
  rewrite run_download_file_background. cbv zeta. rewrite B. cbn [result registry trace].
  rewrite insert_insert_eq. repeat split.
Qed.

(** X10. The [fileName] of a failed entry is the request's file name when
    the failure comes before the name is settled (line 122), and the
    settled name, which may be the one from the metadata, when it comes
    later. *)
Theorem failed_entry_file_name file_id file_name download_path reg :
  let o := run (download_file_background cfg env file_id file_name download_path) reg in
  let o1 := run (resolve env file_id file_name) reg in
  (forall e, result o1 = inl e ->
     registry o !! file_id = Some (error_entry file_name e)) /\
  (forall download_url expected_size name e,
     result o1 = inr (download_url, expected_size, name) ->
     result (run (transfer env file_id name download_path download_url expected_size)
               (registry o1)) = inl e ->
     registry o !! file_id = Some (error_entry (Some name) e)).
Proof.
  cbv zeta. rewrite run_download_file_background. cbv zeta.
  pose proof (run_try_block cfg env file_id file_name download_path reg) as B.
  cbv zeta in B. split.
  - intros e He. rewrite He in B. rewrite B. cbn [result registry]. apply lookup_insert_eq.
  - intros download_url expected_size name e H1 H2.
    rewrite (proj1 (run_resolve env file_id file_name reg)) in H2.
    rewrite H1 in B. destruct B as [_ B]. rewrite H2 in B. rewrite B.
    cbn [result registry]. apply lookup_insert_eq.
Qed.

(** X11. If the entry is no longer in the registry when the transfer is
    over, the final status update raises [KeyError], whose text is the
    [repr] of the file id: nothing is written and no cleanup is started. *)
Theorem completion_fails_when_entry_gone file_id file_name file_path downloaded_size reg :
  reg !! file_id = None ->
  let o := run (finish cfg env file_id file_name file_path downloaded_size) reg in
  result o = inl (repr file_id) /\
  registry o = reg /\
  started (trace o) = [] /\
  progress_writes file_id (trace o) = [].
Proof.
  intros Hd. cbv zeta. unfold finish.
  destruct (run_set_permissions env file_path file_name reg) as (l1 & m1 & R1).
  unfold mbind, thread_bind. rewrite (run_bind_returns _ _ _ _ _ _ R1).
  norm. rewrite Hd. norm. repeat split.
Qed.
End Success.

(** ** The request handlers *)

Ltac norm_among :=
  cbn [run_among bind try_except mbind mret thread_bind thread_ret emit
       registry trace result store set_item contains get_item delete_item
       start sleep log call call_ subscript locals].

(** X1. A begin-download request is always answered, whatever the other
    threads do to the registry meanwhile, and it never writes to the
    registry; it starts at most one thread. When the body cannot be read
    the answer is 500 with the text of the exception, which is logged;
    when it can, a missing or empty file id is answered 400 with nothing
    logged and nothing started. *)
Theorem download_always_answers cfg request_json reg others k :
  let o := run_among others k (download cfg request_json) reg in
  (exists r, result o = inr r) /\
  Forall no_write (trace o) /\
  (length (started (trace o)) <= 1)%nat /\
  (forall e, request_json = inl e ->
     result o = inr (ServerError e) /\ trace o = [EvLog ERROR ("Download error: " +:+ e)]) /\
  (forall data, request_json = inr data -> falsy (req_fileId data) = true ->
     result o = inr (BadRequest "File ID is required") /\ trace o = []) /\
  registry (run (download cfg request_json) reg) = reg.
Proof.
  cbv zeta. destruct request_json as [e|data].
  - unfold download. norm_among. norm.
    split; [eauto|]. split; [repeat constructor|]. split; [simpl; lia|]. split.
    + intros ? [= <-]. split; reflexivity.
    + split; [intros ? [=]|reflexivity].
  - destruct (falsy (req_fileId data)) eqn:Hf.
    + unfold download. norm_among. norm. rewrite Hf. norm_among. norm.
      split; [eauto|]. split; [constructor|]. split; [simpl; lia|]. split; [intros ? [=]|].
      split; [|reflexivity]. intros ? [= <-] _. split; reflexivity.
    + destruct (req_fileId data) as [file_id|] eqn:Hid; [|discriminate].
      assert (Hne : file_id <> EmptyString) by (intros ->; discriminate).
      assert (Hgoal :
        let o := run_among others k (download cfg (inr data)) reg in
        (exists r, result o = inr r) /\ Forall no_write (trace o) /\
        (length (started (trace o)) <= 1)%nat).
      { cbv zeta. unfold download. norm_among. rewrite Hid, Hf. norm_among.
        cbn [str default from_option id].
        destruct (bool_decide _); norm_among.
        - destruct (_ !! file_id); norm_among.
          + destruct (_ !! file_id); norm_among.
            * split; [eauto|]. split; [repeat constructor|simpl; lia].
            * split; [eauto|]. split; [repeat constructor|simpl; lia].
          + split; [eauto|]. split; [repeat constructor|simpl; lia].
        - split; [eauto|]. split; [repeat constructor|simpl; lia]. }
      cbv zeta in Hgoal. destruct Hgoal as (H1 & H2 & H3).
      split; [exact H1|]. split; [exact H2|]. split; [exact H3|]. split; [intros ? [=]|].
      split; [intros ? [= <-] Hf'; rewrite Hid in Hf'; congruence|].
      rewrite (run_download cfg data reg file_id Hid Hne). reflexivity.
Qed.

Lemma evict_at_eq file_id k reg : evict_at file_id k k reg = delete file_id reg.
Proof. unfold evict_at. rewrite decide_True by reflexivity. reflexivity. Qed.

Lemma evict_at_ne file_id k n reg : n <> k -> evict_at file_id k n reg = reg.
Proof. intros H. unfold evict_at. rewrite decide_False by exact H. reflexivity. Qed.

(** X2. The "already in progress" answer reads the entry after having
    tested that it is there. If another thread deletes the entry in
    between, before either of the two reads, the request is answered 500
    with the text of the [KeyError], the [repr] of the file id; no
    download is started. *)
Theorem download_answers_500_when_entry_vanishes cfg data reg file_id d k :
  req_fileId data = Some file_id -> file_id <> EmptyString ->
  reg !! file_id = Some d ->
  (k = 2 \/ k = 3)%nat ->
  let o := run_among (evict_at file_id k) 0 (download cfg (inr data)) reg in
  result o = inr (ServerError (repr file_id)) /\
  started (trace o) = [] /\
  registry o !! file_id = None.
Proof.
  intros Hid Hne Hd Hk. cbv zeta. unfold download.
  norm_among. rewrite Hid, (falsy_nonempty _ Hne). norm_among.
  cbn [str default from_option id].
  rewrite !(evict_at_ne file_id k 0), !(evict_at_ne file_id k 1) by lia.
  rewrite bool_decide_true by eauto. norm_among.
  destruct Hk as [-> | ->].
  - rewrite !evict_at_eq, lookup_delete_eq. norm_among.
    rewrite !evict_at_ne by lia. repeat split. apply lookup_delete_eq.
  - rewrite !(evict_at_ne file_id 3 2) by lia. rewrite Hd. norm_among.
    rewrite !evict_at_eq, lookup_delete_eq. norm_among.
    rewrite !evict_at_ne by lia. repeat split. apply lookup_delete_eq.
Qed.

Lemma run_download_progress file_id reg :
  run (download_progress file_id) reg =
    mkOutcome reg []
      (inr match reg !! file_id with
           | Some d => ProgressFound d
           | None => ProgressNotFound "Download not found or completed"
           end).
Proof.
  unfold download_progress. norm.
  destruct (reg !! file_id) as [d|] eqn:Hd.
  - rewrite bool_decide_true by eauto. norm. rewrite Hd. reflexivity.
  - rewrite bool_decide_false by (intros [? ?]; congruence). reflexivity.
Qed.

(** X3. When a download task has run to its end among threads that left
    the entry of its file id alone, the registry holds that entry,
    completed or failed, not downloading any more, and a progress request
    for the id that is handled while the entry is left alone finds it;
    once the cleanup of the id has run, such a request is answered 404. *)
Theorem progress_after_download cfg env file_id file_name download_path reg others k others' k' :
  (forall n reg, others n reg !! file_id = reg !! file_id) ->
  (forall n reg, others' n reg !! file_id = reg !! file_id) ->
  let done :=
    registry (run_among others k
                (download_file_background cfg env file_id file_name download_path) reg) in
  (exists d,
     done !! file_id = Some d /\
     result (run_among others' k' (download_progress file_id) done) = inr (ProgressFound d) /\
     (status d = Completed \/ status d = Error)) /\
  result (run_among others' k' (download_progress file_id) (registry (run (cleanup file_id) done)))
    = inr (ProgressNotFound "Download not found or completed").
Proof.
  intros Hothers Hothers'. cbv zeta.
  destruct (task_reaches_terminal_status cfg env file_id file_name download_path reg)
    as (_ & d & Hd & Hst).
  rewrite <- (proj1 (among_alone file_id others Hothers _ k reg
                       (own_download_file_background file_id cfg env file_name download_path)))
    in Hd.
  split.
  - exists d. split; [exact Hd|]. split; [|exact Hst].
    rewrite (proj2 (proj2 (among_alone file_id others' Hothers' _ k' _
                             (own_download_progress file_id)))).
    rewrite run_download_progress, Hd. reflexivity.
  - rewrite (proj2 (proj2 (among_alone file_id others' Hothers' _ k' _
                             (own_download_progress file_id)))).
    rewrite run_download_progress.
    assert (Hc : forall r, registry (run (cleanup file_id) r) = delete file_id r).
    { intros r. unfold cleanup. norm. destruct (r !! file_id) as [d'|] eqn:Hd'.
      - rewrite bool_decide_true by eauto. norm. rewrite Hd'. reflexivity.
      - rewrite bool_decide_false by (intros [? ?]; congruence). norm.
        rewrite delete_id by exact Hd'. reflexivity. }
    rewrite Hc, lookup_delete_eq. reflexivity.
Qed.

(** X4. A progress request whose entry is deleted by another thread
    between the membership test and the read is answered 500 with the
    text of the [KeyError], the [repr] of the file id, and the error is
    logged. *)
Theorem progress_answers_500_when_entry_vanishes file_id reg d :
  reg !! file_id = Some d ->
  let o := run_among (evict_at file_id 1) 0 (download_progress file_id) reg in
  result o = inr (ProgressError (repr file_id)) /\
  trace o = [EvLog ERROR ("Progress check error: " +:+ repr file_id)].
Proof.
  intros Hd. cbv zeta. unfold download_progress. norm_among.
  rewrite !(evict_at_ne file_id 1 0) by lia.
  rewrite bool_decide_true by eauto. norm_among.
  rewrite !evict_at_eq, lookup_delete_eq. norm_among. split; reflexivity.
Qed.

(** ** What the threads of the process never do *)

Section Ops.
Context (P : Op -> Prop).

Lemma every_op_bind {E A B} (m : Thread E A) (f : A -> Thread E B) :
  every_op P m -> (forall a, every_op P (f a)) -> every_op P (bind m f).
Proof.
  intros Hm Hf.
  induction m as [a|e|k v next IH|k fld next IH exc IHx|k next IH|k next IH exc IHx
                 |k next IH exc IHx|t next IH|secs next IH|lvl msg next IH];
    simpl in *; try tauto.
  - apply Hf.
  - destruct Hm as [Hk Hn]. split; [exact Hk|]. intros b. apply IH, Hn.
  - destruct Hm as (Hk & Hn & Hx). split; [exact Hk|]. split; [|apply IHx, Hx].
    intros d. apply IH, Hn.
Qed.

Lemma every_op_try_except {E E' A} (body : Thread E A) (handler : E -> Thread E' A) :
  every_op P body -> (forall e, every_op P (handler e)) -> every_op P (try_except body handler).
Proof.
  intros Hm Hf.
  induction body as [a|e|k v next IH|k fld next IH exc IHx|k next IH|k next IH exc IHx
                    |k next IH exc IHx|t next IH|secs next IH|lvl msg next IH];
    simpl in *; try tauto.
  - apply Hf.
  - destruct Hm as [Hk Hn]. split; [exact Hk|]. intros b. apply IH, Hn.
  - destruct Hm as (Hk & Hn & Hx). split; [exact Hk|]. split; [|apply IHx, Hx].
    intros d. apply IH, Hn.
Qed.

Lemma every_op_call {A} (r : string + A) : every_op P (call r).
Proof. destruct r; exact I. Qed.

Lemma every_op_call_ (r : option string) : every_op P (call_ r).
Proof. destruct r; exact I. Qed.

Lemma every_op_subscript {A} k (v : option A) : every_op P (subscript k v).
Proof. destruct v; exact I. Qed.

(** One step of the scheduler leaves a thread of which the same holds. *)
Lemma every_op_step {E A} (t : Thread E A) reg :
  every_op P t ->
  match thread_step t reg with
  | Finished _ => True
  | Continue _ _ _ next => every_op P next
  end.
Proof.
  intros H. destruct t; simpl in *; try exact I; try tauto.
  - destruct (reg !! k); tauto.
  - destruct H as [_ H]. apply H.
  - destruct H as (_ & Hn & Hx). destruct (reg !! k); [apply Hn|exact Hx].
  - destruct (reg !! k); tauto.
Qed.
End Ops.

Lemma every_op_mono {E A} (P Q : Op -> Prop) (t : Thread E A) :
  (forall op, P op -> Q op) -> every_op P t -> every_op Q t.
Proof.
  intros HPQ.
  induction t as [a|e|k v next IH|k fld next IH exc IHx|k next IH|k next IH exc IHx
                 |k next IH exc IHx|t next IH|secs next IH|lvl msg next IH];
    simpl; intuition auto.
Qed.

Ltac ops_tac :=
  repeat first
    [ exact I
    | assumption
    | apply every_op_bind; [|intros]
    | apply every_op_try_except; [|intros]
    | simple apply every_op_call | simple apply every_op_call_
    | simple apply every_op_subscript
    | progress unfold mbind, thread_bind, mret, thread_ret, locals
    | match goal with
      | |- every_op _ (let '(_, _) := ?x in _) => destruct x
      | |- every_op _ (if ?b then _ else _) => destruct b
      | |- every_op _ (match ?x with Some _ => _ | None => _ end) => destruct x
      | |- every_op _ (set_item _ _) => simpl; tauto
      | |- every_op _ (get_item _) => simpl; tauto
      | |- every_op _ (contains _) => simpl; tauto
      | |- every_op _ (log _ _) => simpl; tauto
      | |- every_op _ (sleep _) => simpl; tauto
      end ].

Lemma reads_download cfg request_json : every_op reads (download cfg request_json).
Proof.
  unfold download. ops_tac. simpl. tauto.
Qed.

Lemma reads_step {E A} (t : Thread E A) reg :
  every_op reads t ->
  match thread_step t reg with
  | Finished _ => True
  | Continue reg' _ _ _ => reg' = reg
  end.
Proof.
  intros H. destruct t; simpl in *; try tauto.
  - destruct (reg !! k); reflexivity.
Qed.

Lemma handlers_read_only cfg ls : forall s s',
  Forall (every_op reads) (handlers s) ->
  exec cfg ls s = Some s' ->
  Forall (every_op reads) (handlers s').
Proof.
  induction ls as [|l ls IH]; intros s s' Hh Hex; simpl in Hex.
  - injection Hex as <-. exact Hh.
  - destruct (sys_step cfg l s) as [s1|] eqn:Hstep; [|discriminate].
    apply (IH s1 s'); [|exact Hex]. clear IH Hex.
    destruct l as [request_json|i env|i env|]; simpl in Hstep.
    + injection Hstep as <-. simpl. apply Forall_app. split; [exact Hh|].
      constructor; [apply reads_download|constructor].
    + destruct (handlers s !! i) as [t|] eqn:Hi; [|discriminate].
      assert (Ht : every_op reads t) by (eapply Forall_lookup_1; eassumption).
      pose proof (every_op_step reads t (active_downloads s) Ht) as Hs.
      destruct (thread_step t (active_downloads s)) as [r|reg' started delay next];
        injection Hstep as <-; simpl.
      * apply Forall_delete. exact Hh.
      * apply Forall_insert; assumption.
    + destruct (workers s !! i) as [[wake t]|]; [|discriminate].
      destruct (decide (wake <= clock s)%nat); [|discriminate].
      destruct (thread_step t (active_downloads s)); injection Hstep as <-; exact Hh.
    + injection Hstep as <-. exact Hh.
Qed.

(** X17. In every execution of the process a step of a request handler
    leaves the registry as it is: only download and cleanup threads write
    to it. *)
Theorem request_handlers_never_write cfg ls s i env s' :
  exec cfg ls boot = Some s ->
  sys_step cfg (Handle i env) s = Some s' ->
  active_downloads s' = active_downloads s.
Proof.
  intros Hex Hstep.
  pose proof (handlers_read_only cfg ls boot s (Forall_nil_2 _) Hex) as Hh.
  simpl in Hstep.
  destruct (handlers s !! i) as [t|] eqn:Hi; [|discriminate].
  assert (Ht : every_op reads t) by (eapply Forall_lookup_1; eassumption).
  pose proof (reads_step t (active_downloads s) Ht) as Hs.
  destruct (thread_step t (active_downloads s)) as [r|reg' started delay next];
    injection Hstep as <-; simpl; [reflexivity|exact Hs].
Qed.


Section Requested.
Context (cfg : Config).

Lemma keeps_to_download K request_json :
  (forall data k, request_json = inr data -> req_fileId data = Some k -> K k) ->
  every_op (keeps_to K) (download cfg request_json).
Proof.
  intros HK. unfold download. apply every_op_try_except; [|intros; ops_tac].
  unfold mbind, thread_bind, mret, thread_ret.
  destruct request_json as [e|data]; [exact I|]. cbn [call bind].
  destruct (req_fileId data) as [k|] eqn:Hid; [|exact I].
  destruct (falsy (Some k)); [exact I|].
  pose proof (HK data k eq_refl Hid) as Hk.
  ops_tac. simpl. tauto.
Qed.

Lemma keeps_to_stream_loop K file_id total_size items :
  forall downloaded_size,
    every_op (keeps_to K) (stream_loop file_id total_size items downloaded_size).
Proof.
  induction items as [|[data write|e] items IH]; intros downloaded_size;
    cbn [stream_loop]; [exact I| |exact I].
  ops_tac; [|apply IH]. unfold receive_chunk. destruct data; ops_tac.
Qed.

Lemma keeps_to_program K env t :
  K (task_file_id t) -> every_op (keeps_to K) (program cfg env t).
Proof.
  intros Hk. destruct t as [file_id file_name download_path|file_id]; simpl in Hk.
  - unfold program, download_file_background, try_block, resolve, transfer, finish,
      set_permissions, refresh_plex, except_clause.
    ops_tac; try (simpl; tauto). apply keeps_to_stream_loop.
  - unfold program, cleanup. ops_tac. simpl. tauto.
Qed.

Lemma keeps_to_step {E A} K (t : Thread E A) reg :
  every_op (keeps_to K) t ->
  (forall k, is_Some (reg !! k) -> K k) ->
  match thread_step t reg with
  | Finished _ => True
  | Continue reg' started _ _ =>
      (forall k, is_Some (reg' !! k) -> K k) /\
      (forall t', started = Some t' -> K (task_file_id t'))
  end.
Proof.
  intros H Hreg. destruct t; simpl in *; try exact I;
    try (split; [exact Hreg|discriminate]).
  - split; [|discriminate]. intros k' Hk'.
    destruct (decide (k = k')) as [<-|Hne]; [tauto|].
    rewrite lookup_insert_ne in Hk' by exact Hne. auto.
  - destruct (reg !! k) eqn:Hk; (split; [|discriminate]); [|exact Hreg].
    intros k' Hk'. destruct (decide (k = k')) as [<-|Hne]; [apply Hreg; eauto|].
    rewrite lookup_insert_ne in Hk' by exact Hne. auto.
  - destruct (reg !! k); (split; [exact Hreg|discriminate]).
  - destruct (reg !! k) eqn:Hk; (split; [|discriminate]); [|exact Hreg].
    intros k' Hk'. destruct (decide (k = k')) as [<-|Hne].
    + rewrite lookup_delete_eq in Hk'. destruct Hk' as [? [=]].
    + rewrite lookup_delete_ne in Hk' by exact Hne. auto.
  - split; [exact Hreg|]. intros t' [= <-]. tauto.
Qed.

Lemma confined_mono (K K' : string -> Prop) s :
  (forall k, K k -> K' k) -> confined K s -> confined K' s.
Proof.
  intros HK (Hr & Hh & Hw).
  assert (Hop : forall op, keeps_to K op -> keeps_to K' op)
    by (intros [] ; simpl; auto).
  split; [intros k Hk; auto|]. split.
  - eapply Forall_impl; [exact Hh|]. intros t. apply every_op_mono, Hop.
  - eapply Forall_impl; [exact Hw|]. intros w. apply every_op_mono, Hop.
Qed.

Lemma confined_spawn K env now started :
  (forall t', started = Some t' -> K (task_file_id t')) ->
  Forall (fun w : nat * Thread string unit => every_op (keeps_to K) w.2)
    (spawn cfg env now started).
Proof.
  intros H. destruct started as [t'|]; simpl; [|constructor].
  constructor; [|constructor]. simpl. apply keeps_to_program, H. reflexivity.
Qed.

Lemma confined_step K l s s' :
  confined K s -> sys_step cfg l s = Some s' ->
  confined (fun k => K k \/ requested [l] k) s'.
Proof.
  intros Hc Hstep.
  destruct l as [request_json|i env|i env|]; simpl in Hstep.
  - injection Hstep as <-.
    apply (confined_mono K (fun k => K k \/ requested [Request request_json] k)) in Hc;
      [|tauto].
    destruct Hc as (Hr & Hh & Hw). split; [exact Hr|]. split; [|exact Hw].
    simpl. apply Forall_app. split; [exact Hh|]. constructor; [|constructor].
    apply keeps_to_download. intros data k -> Hid. right.
    exists data. split; [left; reflexivity|exact Hid].
  - apply (confined_mono K); [tauto|]. destruct Hc as (Hr & Hh & Hw).
    destruct (handlers s !! i) as [t|] eqn:Hi; [|discriminate].
    assert (Ht : every_op (keeps_to K) t) by (eapply Forall_lookup_1; eassumption).
    pose proof (every_op_step _ t (active_downloads s) Ht) as Hn.
    pose proof (keeps_to_step K t (active_downloads s) Ht Hr) as Hs.
    destruct (thread_step t (active_downloads s)) as [r|reg' started delay next];
      injection Hstep as <-; simpl.
    + split; [exact Hr|]. split; [apply Forall_delete; exact Hh|exact Hw].
    + destruct Hs as [Hr' Hsp]. split; [exact Hr'|]. split.
      * apply Forall_insert; assumption.
      * apply Forall_app. split; [exact Hw|]. apply confined_spawn, Hsp.
  - apply (confined_mono K); [tauto|]. destruct Hc as (Hr & Hh & Hw).
    destruct (workers s !! i) as [[wake t]|] eqn:Hi; [|discriminate].
    destruct (decide (wake <= clock s)%nat); [|discriminate].
    assert (Ht : every_op (keeps_to K) t) by (apply (Forall_lookup_1 _ _ _ _ Hw Hi)).
    pose proof (every_op_step _ t (active_downloads s) Ht) as Hn.
    pose proof (keeps_to_step K t (active_downloads s) Ht Hr) as Hs.
    destruct (thread_step t (active_downloads s)) as [r|reg' started delay next];
      injection Hstep as <-; simpl.
    + split; [exact Hr|]. split; [exact Hh|apply Forall_delete; exact Hw].
    + destruct Hs as [Hr' Hsp]. split; [exact Hr'|]. split; [exact Hh|].
      apply Forall_app. split; [apply Forall_insert; assumption|].
      apply confined_spawn, Hsp.
  - injection Hstep as <-. apply (confined_mono K); [tauto|exact Hc].
Qed.

Lemma confined_exec ls : forall K s s',
  confined K s -> exec cfg ls s = Some s' ->
  confined (fun k => K k \/ requested ls k) s'.
Proof.
  induction ls as [|l ls IH]; intros K s s' Hc Hex; simpl in Hex.
  - injection Hex as <-. apply (confined_mono K); [tauto|exact Hc].
  - destruct (sys_step cfg l s) as [s1|] eqn:Hstep; [|discriminate].
    pose proof (IH _ s1 s' (confined_step K l s s1 Hc Hstep) Hex) as H.
    eapply confined_mono; [|exact H].
    intros k [[Hk|(data & Hin & Hid)]|(data & Hin & Hid)]; [left; exact Hk|right..].
    + exists data. split; [|exact Hid]. destruct Hin as [<-|[]]. left. reflexivity.
    + exists data. split; [right; exact Hin|exact Hid].
Qed.

(** X18. In every execution of the process, the registry holds entries
    only for file ids that a begin-download request has asked for. *)
Theorem entries_only_for_requested_ids ls s k :
  exec cfg ls boot = Some s ->
  is_Some (active_downloads s !! k) ->
  exists data, In (Request (inr data)) ls /\ req_fileId data = Some k.
Proof.
  intros Hex Hk.
  assert (H0 : confined (fun _ => False) boot).
  { split; [|split; constructor]. intros k' Hk'. simpl in Hk'.
    rewrite lookup_empty in Hk'. destruct Hk' as [? [=]]. }
  destruct (confined_exec ls _ boot s H0 Hex) as (Hr & _).
  destruct (Hr k Hk) as [[]|H]. exact H.
Qed.
End Requested.

(** ** The listing of downloaded files *)

Section Sorting.
Local Open Scope Q_scope.

Lemma insert_newest_first_perm x l : insert_newest_first x l ≡ₚ x :: l.
Proof.
  induction l as [|y l IH]; simpl; [reflexivity|].
  destruct (Qle_bool (entry_modified y) (entry_modified x)); [reflexivity|].
  rewrite IH. apply Permutation_swap.
Qed.

Lemma sort_newest_first_perm l : sort_newest_first l ≡ₚ l.
Proof.
  induction l as [|x l IH]; simpl; [reflexivity|].
  rewrite insert_newest_first_perm, IH. reflexivity.
Qed.

Lemma insert_newest_first_sorted x l :
  StronglySorted newer_or_same l -> StronglySorted newer_or_same (insert_newest_first x l).
Proof.
  induction l as [|y l IH]; intros Hs; simpl.
  - constructor; constructor.
  - apply StronglySorted_inv in Hs as [Hl Hy].
    destruct (Qle_bool (entry_modified y) (entry_modified x)) eqn:Hle.
    + apply Qle_bool_iff in Hle. constructor; [constructor; assumption|].
      constructor; [exact Hle|].
      eapply Forall_impl; [exact Hy|]. unfold newer_or_same. simpl. intros z Hz.
      eapply Qle_trans; eassumption.
    + constructor; [apply IH, Hl|].
      rewrite insert_newest_first_perm. constructor; [|exact Hy].
      unfold newer_or_same. apply Qlt_le_weak, Qnot_le_lt.
      intros H. apply Qle_bool_iff in H. congruence.
Qed.

Lemma sort_newest_first_sorted l : StronglySorted newer_or_same (sort_newest_first l).
Proof.
  induction l as [|x l IH]; simpl; [constructor|]. apply insert_newest_first_sorted, IH.
Qed.

Lemma insert_newest_first_stable m x l :
  List.filter (fun f => Qeq_bool (entry_modified f) m) (insert_newest_first x l)
  = List.filter (fun f => Qeq_bool (entry_modified f) m) (x :: l).
Proof.
  induction l as [|y l IH]; [reflexivity|]. cbn [insert_newest_first].
  destruct (Qle_bool (entry_modified y) (entry_modified x)) eqn:Hle; [reflexivity|].
  cbn [List.filter] in *. rewrite IH.
  destruct (Qeq_bool (entry_modified x) m) eqn:Hx; [|reflexivity].
  destruct (Qeq_bool (entry_modified y) m) eqn:Hy; [|reflexivity].
  exfalso. apply Qeq_bool_iff in Hx, Hy.
  assert (Hyx : entry_modified y <= entry_modified x) by (rewrite Hx, Hy; apply Qle_refl).
  apply Qle_bool_iff in Hyx. congruence.
Qed.

Lemma sort_newest_first_stable m l :
  List.filter (fun f => Qeq_bool (entry_modified f) m) (sort_newest_first l)
  = List.filter (fun f => Qeq_bool (entry_modified f) m) l.
Proof.
  induction l as [|x l IH]; [reflexivity|].
  cbn [sort_newest_first foldr]. fold (sort_newest_first l).
  rewrite insert_newest_first_stable. cbn [List.filter]. rewrite IH. reflexivity.
Qed.
End Sorting.

Section Listing.
Context (cfg : Config) (fs : FileSystem).

Lemma run_list_files dir ty names : forall files reg,
  run (list_files cfg fs dir ty names files) reg =
    mkOutcome reg []
      match head (omap (stat_failure fs dir) names) with
      | Some e => inl e
      | None => inr (files ++ omap (entry_of cfg fs dir ty) names)
      end.
Proof.
  induction names as [|filename names IH]; intros files reg.
  - simpl. rewrite app_nil_r. reflexivity.
  - cbn [list_files omap list_omap]. unfold stat_failure at 1, entry_of at 1.
    destruct (isfile fs (os_path_join dir filename)).
    + destruct (os_stat fs (os_path_join dir filename)) as [e|st]; norm; [reflexivity|].
      rewrite IH. cbn [head]. fold (omap (stat_failure fs dir) names).
      fold (omap (entry_of cfg fs dir ty) names).
      destruct (head _); [reflexivity|]. rewrite <- app_assoc. reflexivity.
    + rewrite IH. reflexivity.
Qed.

Lemma run_list_directory dir ty files reg :
  run (list_directory cfg fs dir ty files) reg =
    mkOutcome reg []
      match scan_failure fs dir with
      | Some e => inl e
      | None => inr (files ++ entries_of cfg fs dir ty)
      end.
Proof.
  unfold list_directory, scan_failure, entries_of.
  destruct (path_exists fs dir); [|norm; rewrite app_nil_r; reflexivity].
  destruct (listdir fs dir) as [e|names]; norm; [reflexivity|].
  apply run_list_files.
Qed.

Lemma run_list_downloads reg :
  run (list_downloads cfg fs) reg =
    match scan_failure fs (MOVIES_PATH cfg), scan_failure fs (SERIES_PATH cfg) with
    | Some e, _ | None, Some e =>
        mkOutcome reg [EvLog ERROR ("List downloads error: " +:+ e)] (inr (ListError e))
    | None, None =>
        mkOutcome reg []
          (inr (Listing (sort_newest_first
                           (entries_of cfg fs (MOVIES_PATH cfg) Movie
                            ++ entries_of cfg fs (SERIES_PATH cfg) Series))))
    end.
Proof.
  unfold list_downloads, mbind, thread_bind, mret, thread_ret.
  rewrite run_try_except, run_bind, run_list_directory. cbn [result registry trace app].
  destruct (scan_failure fs (MOVIES_PATH cfg)) as [e|]; [reflexivity|].
  rewrite run_bind, run_list_directory. cbn [result registry trace app].
  destruct (scan_failure fs (SERIES_PATH cfg)) as [e|]; reflexivity.
Qed.

(** X19. A listing that is returned is sorted by modification time,
    newest first; it is a rearrangement of the entries found in the
    movies directory followed by those found in the series directory, and
    entries of equal time keep the order in which they were found. *)
Theorem listing_newest_first reg files :
  result (run (list_downloads cfg fs) reg) = inr (Listing files) ->
  let scanned := entries_of cfg fs (MOVIES_PATH cfg) Movie
                 ++ entries_of cfg fs (SERIES_PATH cfg) Series in
  StronglySorted newer_or_same files /\
  files ≡ₚ scanned /\
  forall m, List.filter (fun f => Qeq_bool (entry_modified f) m) files
            = List.filter (fun f => Qeq_bool (entry_modified f) m) scanned.
Proof.
  rewrite run_list_downloads. cbv zeta.
  destruct (scan_failure fs (MOVIES_PATH cfg)); [discriminate|].
  destruct (scan_failure fs (SERIES_PATH cfg)); [discriminate|].
  intros [= <-]. split; [apply sort_newest_first_sorted|]. split.
  - apply sort_newest_first_perm.
  - intros m. apply sort_newest_first_stable.
Qed.

(** X20. A listing that is returned holds an entry exactly for each name
    that [os.listdir] gives in a directory that exists, movies or series,
    and that is a regular file there; the entry has the name, the size and
    modification time of [os.stat], and the type of the directory.
    Subdirectories and missing directories add nothing. *)
Theorem listing_names_regular_files reg files f :
  result (run (list_downloads cfg fs) reg) = inr (Listing files) ->
  In f files <->
  exists dir filename st,
    (dir = MOVIES_PATH cfg /\ entry_type f = Movie \/
     dir = SERIES_PATH cfg /\ entry_type f = Series) /\
    path_exists fs dir = true /\
    (exists names, listdir fs dir = inr names /\ In filename names) /\
    isfile fs (os_path_join dir filename) = true /\
    os_stat fs (os_path_join dir filename) = inr st /\
    f = file_entry cfg filename st (entry_type f).
Proof.
  rewrite run_list_downloads.
  destruct (scan_failure fs (MOVIES_PATH cfg)); [discriminate|].
  destruct (scan_failure fs (SERIES_PATH cfg)); [discriminate|].
  intros [= <-].
  assert (Hin : forall dir ty,
            In f (entries_of cfg fs dir ty) <->
            exists filename st,
              path_exists fs dir = true /\
              (exists names, listdir fs dir = inr names /\ In filename names) /\
              isfile fs (os_path_join dir filename) = true /\
              os_stat fs (os_path_join dir filename) = inr st /\
              f = file_entry cfg filename st ty).
  { intros dir ty. unfold entries_of. rewrite <- list_elem_of_In.
    destruct (path_exists fs dir);
      [|split; [intros H; inversion H|intros (? & ? & [=] & _)]].
    destruct (listdir fs dir) as [e|names];
      [split; [intros H; inversion H|intros (? & ? & _ & (? & [=] & _) & _)]|].
    rewrite list_elem_of_omap. split.
    - intros (filename & Hn & He). unfold entry_of in He.
      destruct (isfile fs (os_path_join dir filename)) eqn:Hf; [|discriminate].
      destruct (os_stat fs (os_path_join dir filename)) as [e|st] eqn:Hs; [discriminate|].
      injection He as <-. exists filename, st. apply list_elem_of_In in Hn.
      repeat split; eauto.
    - intros (filename & st & _ & (names' & [= <-] & Hn) & Hf & Hs & ->).
      exists filename. split; [apply list_elem_of_In, Hn|].
      unfold entry_of. rewrite Hf, Hs. reflexivity. }
  rewrite <- list_elem_of_In, sort_newest_first_perm, list_elem_of_In.
  rewrite in_app_iff, !Hin. split.
  - intros [(filename & st & Hp & Hl & Hf & Hs & ->)|(filename & st & Hp & Hl & Hf & Hs & ->)].
    + exists (MOVIES_PATH cfg), filename, st. split; [left; split; reflexivity|].
      repeat split; assumption.
    + exists (SERIES_PATH cfg), filename, st. split; [right; split; reflexivity|].
      repeat split; assumption.
  - intros (dir & filename & st & [[-> Ht]|[-> Ht]] & Hp & Hl & Hf & Hs & He);
      rewrite Ht in He; [left|right]; exists filename, st; repeat split; eauto.
Qed.

(** X21. The listing never changes the registry, and it is all or
    nothing: it is answered 500 with the text of the first exception met,
    in the movies directory first, and a regular file whose [os.stat]
    raises fails the whole request. Directories that do not exist are not
    an error: when both are missing the listing is empty. *)
Theorem listing_fails_as_a_whole reg :
  let o := run (list_downloads cfg fs) reg in
  registry o = reg /\
  (forall e,
     result o = inr (ListError e) <->
     scan_failure fs (MOVIES_PATH cfg) = Some e \/
     scan_failure fs (MOVIES_PATH cfg) = None /\ scan_failure fs (SERIES_PATH cfg) = Some e) /\
  (forall dir filename e names,
     (dir = MOVIES_PATH cfg \/ dir = SERIES_PATH cfg) ->
     path_exists fs dir = true -> listdir fs dir = inr names -> In filename names ->
     isfile fs (os_path_join dir filename) = true ->
     os_stat fs (os_path_join dir filename) = inl e ->
     exists e', result o = inr (ListError e')) /\
  (path_exists fs (MOVIES_PATH cfg) = false -> path_exists fs (SERIES_PATH cfg) = false ->
   result o = inr (Listing [])).
Proof.
  cbv zeta. rewrite run_list_downloads.
  assert (Hfail : forall dir filename e names,
            path_exists fs dir = true -> listdir fs dir = inr names -> In filename names ->
            isfile fs (os_path_join dir filename) = true ->
            os_stat fs (os_path_join dir filename) = inl e ->
            is_Some (scan_failure fs dir)).
  { intros dir filename e names Hp Hl Hn Hf Hs. unfold scan_failure. rewrite Hp, Hl.
    assert (He : e ∈ omap (stat_failure fs dir) names).
    { apply list_elem_of_omap. exists filename. split; [apply list_elem_of_In, Hn|].
      unfold stat_failure. rewrite Hf, Hs. reflexivity. }
    destruct (omap (stat_failure fs dir) names); [inversion He|]. simpl. eauto. }
  split; [|split; [|split]].
  - destruct (scan_failure fs (MOVIES_PATH cfg)); [reflexivity|].
    destruct (scan_failure fs (SERIES_PATH cfg)); reflexivity.
  - intros e.
    destruct (scan_failure fs (MOVIES_PATH cfg)) as [e1|].
    + cbn [result]. split; [intros [= <-]; left; reflexivity|].
      intros [[= <-]|[[=] _]]. reflexivity.
    + destruct (scan_failure fs (SERIES_PATH cfg)) as [e2|]; cbn [result].
      * split; [intros [= <-]; right; split; reflexivity|].
        intros [[=]|[_ [= <-]]]. reflexivity.
      * split; [discriminate|]. intros [[=]|[_ [=]]].
  - intros dir filename e names Hdir Hp Hl Hn Hf Hs.
    pose proof (Hfail dir filename e names Hp Hl Hn Hf Hs) as [e' He'].
    destruct Hdir as [-> | ->].
    + rewrite He'. eauto.
    + rewrite He'. destruct (scan_failure fs (MOVIES_PATH cfg)); eauto.
  - intros Hm Hs. unfold scan_failure, entries_of. rewrite Hm, Hs. reflexivity.
Qed.
End Listing.

(** ** Login, status and search *)

Lemma falsy_false_Some (x : option string) :
  falsy x = false -> exists s, x = Some s /\ s <> EmptyString /\ str x = s.
Proof.
  destruct x as [[|c s]|]; try discriminate. intros _. eexists. repeat split. discriminate.
Qed.

(** X22. The auto-login at start-up always ends, and the status it
    leaves is consistent with the other fields of [/api/status]: it is
    "not_configured" exactly when [credentials_configured] is false;
    configured credentials give a user name that is not null; "success"
    comes with the message naming that user; and a login that raised gives
    "error" with the text of the exception in the message. *)
Theorem status_fields_consistent c client_login logged_in reg :
  let o := run (auto_login c client_login) reg in
  exists login_status login_message,
    result o = inr (login_status, login_message) /\
    registry o = reg /\
    let r := api_status c logged_in login_status login_message in
    (status_login_status r = NotConfigured <-> status_credentials_configured r = false) /\
    (status_credentials_configured r = true -> exists u, status_username r = Some u /\ u <> EmptyString) /\
    (status_login_status r = LoginSucceeded ->
     exists u, status_username r = Some u /\
               status_login_message r = "Successfully logged in as " +:+ u) /\
    (forall e, client_login (str (WEBSHARE_USERNAME c)) (str (WEBSHARE_PASSWORD c)) = Some e ->
     status_credentials_configured r = true ->
     status_login_status r = LoginFailed /\ status_login_message r = "Login failed: " +:+ e).
Proof.
  cbv zeta. unfold auto_login, api_status. cbn [status_login_status status_credentials_configured
    status_username status_login_message].
  destruct (credentials_configured c) eqn:Hc.
  - unfold credentials_configured in Hc. apply andb_prop in Hc as [Hu _].
    apply negb_true_iff in Hu. rewrite Hu.
    destruct (falsy_false_Some _ Hu) as (u & Hsome & Hne & Hstr). rewrite Hstr.
    destruct (client_login u (str (WEBSHARE_PASSWORD c))) as [e|] eqn:Hl; norm.
    + eexists _, _. split; [reflexivity|]. split; [reflexivity|].
      split; [split; discriminate|]. split; [eauto|]. split; [discriminate|].
      intros e' [= <-] _. split; reflexivity.
    + eexists _, _. split; [reflexivity|]. split; [reflexivity|].
      split; [split; discriminate|]. split; [eauto|]. split; [eauto|].
      intros e' [=].
  - norm. eexists _, _. split; [reflexivity|]. split; [reflexivity|].
    split; [split; reflexivity|]. split; [discriminate|]. split; [discriminate|].
    intros e' _ [=].
Qed.

(** X23. A login request is always answered and never changes the
    registry. It succeeds exactly when the client is logged in already,
    or credentials are configured and the client's login returns; when
    logged in already no login is attempted; an exception of the login is
    answered 400 with its text and logged. *)
Theorem login_answers c logged_in client_login reg :
  let o := run (login c logged_in client_login) reg in
  let attempt := client_login (str (WEBSHARE_USERNAME c)) (str (WEBSHARE_PASSWORD c)) in
  registry o = reg /\
  (exists r, result o = inr r) /\
  ((exists msg, result o = inr (LoginOk msg)) <->
   logged_in = true \/ credentials_configured c = true /\ attempt = None) /\
  (logged_in = true -> result o = inr (LoginOk "Already logged in") /\ trace o = []) /\
  (forall e, logged_in = false -> credentials_configured c = true -> attempt = Some e ->
     result o = inr (LoginRefused e) /\ trace o = [EvLog ERROR ("Login error: " +:+ e)]).
Proof.
  cbv zeta. unfold login. destruct logged_in; norm.
  - split; [reflexivity|]. split; [eauto|]. split; [split; eauto|].
    split; [split; reflexivity|]. intros e [=].
  - destruct (credentials_configured c); norm.
    + destruct (client_login _ _) as [e|]; norm.
      * split; [reflexivity|]. split; [eauto|]. split.
        -- split; [intros [msg [=]]|intros [[=]|[_ [=]]]].
        -- split; [intros [=]|]. intros e' _ _ [= <-]. split; reflexivity.
      * split; [reflexivity|]. split; [eauto|]. split; [split; eauto|].
        split; [intros [=]|]. intros e' _ _ [=].
    + split; [reflexivity|]. split; [eauto|]. split.
      * split; [intros [msg [=]]|intros [[=]|[[=] _]]].
      * split; [intros [=]|]. intros e' _ [=].
Qed.

(** X24. A search request is always answered and never changes the
    registry: 200 with the client's results exactly when the query is a
    JSON value that Python takes as true (a non-empty string, array or
    object, a non-zero number, [true]) and the client's search returns;
    400 exactly when the body is read and the query is missing or taken as
    false; 500 with the text of the exception, which is logged, when the
    body cannot be read or the search raises. *)
Theorem search_answers {R} request_json (client_search : option Json -> string + R) reg :
  let o := run (search request_json client_search) reg in
  registry o = reg /\
  (exists r, result o = inr r) /\
  (forall results,
     result o = inr (SearchResults results) <->
     exists query, request_json = inr query /\ json_falsy query = false /\
                   client_search query = inr results) /\
  ((exists err, result o = inr (SearchBadRequest err)) <->
   exists query, request_json = inr query /\ json_falsy query = true) /\
  (forall e,
     result o = inr (SearchError e) <->
     request_json = inl e \/
     exists query, request_json = inr query /\ json_falsy query = false /\
                   client_search query = inl e) /\
  (forall e, result o = inr (SearchError e) -> trace o = [EvLog ERROR ("Search error: " +:+ e)]).
Proof.
  cbv zeta. unfold search. destruct request_json as [e|query]; norm.
  - split; [reflexivity|]. split; [eauto|]. split; [|split; [|split]].
    + intros results. split; [discriminate|]. intros (? & [=] & _).
    + split; [intros [? [=]]|intros (? & [=] & _)].
    + intros e'. split; [intros [= <-]; left; reflexivity|].
      intros [[= <-]|(? & [=] & _)]. reflexivity.
    + intros e' [= <-]. reflexivity.
  - destruct (json_falsy query) eqn:Hf; norm.
    + split; [reflexivity|]. split; [eauto|]. split; [|split; [|split]].
      * intros results. split; [discriminate|].
        intros (q & [= <-] & Hne & _). congruence.
      * split; eauto.
      * intros e'. split; [discriminate|].
        intros [[=]|(q & [= <-] & Hne & _)]. congruence.
      * discriminate.
    + destruct (client_search query) as [e|results] eqn:Hs; norm.
      * split; [reflexivity|]. split; [eauto|]. split; [|split; [|split]].
        -- intros results. split; [discriminate|].
           intros (q' & [= <-] & _ & H). congruence.
        -- split; [intros [? [=]]|]. intros (q' & [= <-] & H). congruence.
        -- intros e'. split; [intros [= <-]; right; eauto|].
           intros [[=]|(q' & [= <-] & _ & H)]. congruence.
        -- intros e' [= <-]. reflexivity.
      * split; [reflexivity|]. split; [eauto|]. split; [|split; [|split]].
        -- intros results'. split; [intros [= <-]; eauto|].
           intros (q' & [= <-] & _ & H). congruence.
        -- split; [intros [? [=]]|]. intros (q' & [= <-] & H). congruence.
        -- intros e'. split; [discriminate|].
           intros [[=]|(q' & [= <-] & _ & H)]. congruence.
        -- discriminate.
Qed.

(** ** Claims that need the entry to be left alone *)








(** ** The claims on concrete runs *)

(** Scenario 1 of the specification: two chunks of 500 bytes out of 1000
    take the progress through 0, 5, 10, 50, 90 and 100. *)
Example two_chunks_progress :
  progress_writes "abc"
    (trace (run (download_file_background demo_cfg env_plex_down "abc" (Some "a.mkv")
                   "/downloads/movies") ∅))
  = [0; 5; 10; 50; 90; 100].
Proof. vm_compute. reflexivity. Qed.

(** Scenario 2 of the specification: [initiate_download] raises; the entry
    goes straight to the failed state, with the error text in its message
    and progress 0. *)
Example metadata_failure_entry :
  registry (run (download_file_background demo_cfg env_no_metadata "xyz" None
                   "/downloads/movies") ∅) !! "xyz"
  = Some (error_entry None "File not found").
Proof. vm_compute. reflexivity. Qed.

(** [binary64] against the IEEE 754 specification of the standard
    library, on quotients and on their products with 80, in the normal and
    in the subnormal range. *)
Example binary64_agrees_with_SpecFloat :
  Qeq_opt (spec_true_div 7 10) (true_div 7 10) = true /\
  Qeq_opt (spec_percent 7 10) (float_mul (true_div 7 10) 80) = true /\
  Qeq_opt (spec_true_div 1 3) (true_div 1 3) = true /\
  Qeq_opt (spec_percent 1 3) (float_mul (true_div 1 3) 80) = true /\
  Qeq_opt (spec_percent 500 1000) (float_mul (true_div 500 1000) 80) = true /\
  Qeq_opt (spec_true_div 1 (3 * 2 ^ 1022)) (true_div 1 (3 * 2 ^ 1022)) = true /\
  Qeq_opt (spec_true_div 7 (5 * 2 ^ 1021)) (true_div 7 (5 * 2 ^ 1021)) = true /\
  Qeq_opt (spec_percent 3 (7 * 2 ^ 1020)) (float_mul (true_div 3 (7 * 2 ^ 1020)) 80) = true /\
  Qeq_opt (spec_percent 1604213279214967 2673688798691612)
    (float_mul (true_div 1604213279214967 2673688798691612) 80) = true.
Proof. vm_compute. repeat split; reflexivity. Qed.

(** [repr] as Python computes it: on a plain string, on strings with a
    single quote, with both quotes, with a backslash, with controls and
    with characters above 127 that are and are not printable. *)
Example repr_agrees_with_python :
  repr "abc" = "'abc'" /\
  repr EmptyString = "''" /\
  repr (of_codes [105; 116; 39; 115]%nat) = of_codes [34; 105; 116; 39; 115; 34]%nat /\
  repr (of_codes [98; 111; 116; 104; 32; 39; 32; 97; 110; 100; 32; 34]%nat)
    = of_codes [39; 98; 111; 116; 104; 32; 92; 39; 32; 97; 110; 100; 32; 34; 39]%nat /\
  repr (of_codes [97; 92; 98]%nat) = of_codes [39; 97; 92; 92; 98; 39]%nat /\
  repr (of_codes [97; 9; 98; 10; 99; 13; 100]%nat)
    = of_codes [39; 97; 92; 116; 98; 92; 110; 99; 92; 114; 100; 39]%nat /\
  repr (of_codes [0; 31; 127]%nat)
    = of_codes [39; 92; 120; 48; 48; 92; 120; 49; 102; 92; 120; 55; 102; 39]%nat /\
  repr (of_codes [128; 159; 160; 173; 161; 255]%nat)
    = of_codes [39; 92; 120; 56; 48; 92; 120; 57; 102; 92; 120; 97; 48; 92; 120; 97; 100;
                161; 255; 39]%nat.
Proof. vm_compute. repeat split; reflexivity. Qed.

(** Above [2^46] bytes the two roundings can reach the next integer. *)
Example rounding_reaches_next_percent :
  progress_percent 1604213279214967 2673688798691612 = 58 /\
  progress_percent_exact 1604213279214967 2673688798691612 = 57.
Proof. vm_compute. split; reflexivity. Qed.


(** The presence test and the insertion are not atomic: of two requests
    that arrive together both start a download thread for the same id. *)
Example begin_download_race :
  (fun s => (length (workers s), responses s))
    <$> exec demo_cfg (race env_plex_down env_plex_down) boot
  = Some (2%nat, [inr (Started "Download started: a.mkv" "abc");
                  inr (Started "Download started: a.mkv" "abc")]).
Proof. vm_compute. reflexivity. Qed.





(** C4, counterexample. With no declared length and no size in the
    metadata, a chunk of 500 bytes is received and counted ([finalSize] is
    500) but [downloadedSize] is never written to the entry. *)
Lemma unknown_total_downloaded_size_stale :
  let o := run (download_file_background demo_cfg env_unknown_size "abc" (Some "a.mkv")
                  "/downloads/movies") ∅ in
  totalSize <$> registry o !! "abc" = Some (Some 0) /\
  finalSize <$> registry o !! "abc" = Some (Some 500) /\
  downloadedSize <$> registry o !! "abc" = Some None /\
  trace (run (stream_loop "abc" 0 (iter_content one_chunk_no_length) 0)
           {["abc" := starting_entry (Some "a.mkv") 0]}) = [].
Proof. vm_compute. repeat split; reflexivity. Qed.

Lemma unknown_total_writes_nothing_witness :
  0 <= 0 /\
  registry (run (stream_loop "abc" 0 (iter_content one_chunk_no_length) 0)
              {["abc" := starting_entry (Some "a.mkv") 0]})
    = {["abc" := starting_entry (Some "a.mkv") 0]} /\
  trace (run (stream_loop "abc" 0 (iter_content one_chunk_no_length) 0)
           {["abc" := starting_entry (Some "a.mkv") 0]}) = [].
Proof.
  split; [lia|].
  apply (unknown_total_writes_nothing "abc" 0 (iter_content one_chunk_no_length) 0). lia.
Defined.







(** C9, counterexample. Two requests arrive together; the first download
    completes and schedules its cleanup, the second fails and leaves a
    failed entry. Thirty seconds later the cleanup of the first removes the
    failed entry, and the next request for the id starts a new download. *)
Lemma failed_entry_evicted_and_retried :
  let failed := race env_plex_down env_no_metadata ++ first_completes ++ second_fails in
  status_of "abc" <$> exec demo_cfg failed boot = Some (Some Error) /\
  status_of "abc" <$> exec demo_cfg (failed ++ eviction) boot = Some None /\
  (fun s => (workers s, last (responses s)))
    <$> exec demo_cfg (failed ++ eviction ++ retry) boot
  = Some ([(30%nat, download_file_background demo_cfg env_plex_down "abc" (Some "a.mkv")
                      "/downloads/movies")],
          Some (inr (Started "Download started: a.mkv" "abc"))).
Proof. vm_compute. repeat split; reflexivity. Qed.

(** A failed download with no other thread around is what a lone request
    whose download fails leaves behind. *)
Example lone_failure_reaches_after_failure :
  exec demo_cfg lone_failure boot = Some after_failure.
Proof. vm_compute. reflexivity. Qed.

Lemma failed_entry_persists_when_quiescent_witness :
  active_downloads after_failure !! "abc" = Some (error_entry (Some "a.mkv") "File not found") /\
  status (error_entry (Some "a.mkv") "File not found") = Error /\
  quiescent "abc" after_failure /\
  exec demo_cfg duplicate after_failure
    = Some (mkSystem (active_downloads after_failure) 0 [] []
              [inr (Started "Download started: a.mkv" "abc");
               inr (AlreadyInProgress "Download already in progress: a.mkv" Error 0)]) /\
  active_downloads
    (mkSystem (active_downloads after_failure) 0 [] []
       [inr (Started "Download started: a.mkv" "abc");
        inr (AlreadyInProgress "Download already in progress: a.mkv" Error 0)]) !! "abc"
    = Some (error_entry (Some "a.mkv") "File not found").
Proof.
  assert (H1 : active_downloads after_failure !! "abc"
               = Some (error_entry (Some "a.mkv") "File not found")) by reflexivity.
  assert (H2 : status (error_entry (Some "a.mkv") "File not found") = Error) by reflexivity.
  assert (H3 : quiescent "abc" after_failure) by (split; constructor).
  assert (H4 : exec demo_cfg duplicate after_failure
               = Some (mkSystem (active_downloads after_failure) 0 [] []
                         [inr (Started "Download started: a.mkv" "abc");
                          inr (AlreadyInProgress "Download already in progress: a.mkv" Error 0)]))
    by (vm_compute; reflexivity).
  repeat (split; [assumption|]).
  exact (proj1 (failed_entry_persists_when_quiescent demo_cfg "abc" _ duplicate after_failure _
                  H1 H2 H3 H4)).
Defined.

Lemma content_type_selects_directory_witness :
  let data := mkRequestData (Some "abc") None (Some "series") in
  req_fileId data = Some "abc" /\
  "abc" <> EmptyString /\
  started (trace (run (download demo_cfg (inr data)) ∅))
    = [DownloadTask "abc" None "/downloads/series"].
Proof.
  split; [reflexivity|]. split; [discriminate|].
  pose proof (content_type_selects_directory demo_cfg
                (mkRequestData (Some "abc") None (Some "series")) ∅ "abc"
                eq_refl ltac:(discriminate)) as H.
  cbn zeta in H. destruct H as (_ & H & _).
  rewrite (H (lookup_empty _)). reflexivity.
Defined.

(** ** The further properties on concrete runs *)

(** The eviction of X2 under the scheduler: a download completes, its
    cleanup wakes up between the membership test and the read of a second
    request, and that request is answered 500. *)
Example cleanup_overtakes_second_request :
  (fun s => (responses s, status_of "abc" s)) <$> exec demo_cfg cleanup_overtakes_request boot
  = Some ([inr (Started "Download started: a.mkv" "abc"); inr (ServerError "'abc'")], None).
Proof. vm_compute. reflexivity. Qed.

Lemma download_task_frame_witness :
  "zzz" <> "abc" /\
  registry (run (download_file_background demo_cfg env_plex_down "abc" (Some "a.mkv")
                   "/downloads/movies") {["zzz" := entry_abc]}) !! "zzz"
    = Some entry_abc.
Proof.
  split; [discriminate|].
  rewrite (download_task_frame demo_cfg env_plex_down "abc" (Some "a.mkv") "/downloads/movies"
             {["zzz" := entry_abc]} "zzz") by discriminate.
  reflexivity.
Defined.

Lemma stream_loop_delivers_witness :
  ({["abc" := entry_abc]} : Registry) !! "abc" = Some entry_abc /\
  forallb delivered (iter_content two_chunks) = true /\
  let o := run (stream_loop "abc" 1000 (iter_content two_chunks) 0) {["abc" := entry_abc]} in
  result o = inr 1000 /\
  registry o = <["abc" := streaming_entry entry_abc 1000 1000]> {["abc" := entry_abc]}.
Proof.
  assert (Hd : ({["abc" := entry_abc]} : Registry) !! "abc" = Some entry_abc) by reflexivity.
  split; [exact Hd|]. split; [reflexivity|].
  exact (stream_loop_delivers "abc" 1000 (iter_content two_chunks) 0 {["abc" := entry_abc]}
           entry_abc Hd eq_refl).
Defined.

Lemma stream_loop_stops_at_failure_witness :
  let o := run (stream_loop "abc" 1000 broken_stream 0) {["abc" := entry_abc]} in
  result o = inl "Connection reset" /\
  registry o = registry (run (stream_loop "abc" 1000 [Chunk (replicate 500 x00) None] 0)
                           {["abc" := entry_abc]}) /\
  progress <$> registry o !! "abc" = Some 50.
Proof.
  assert (Hd : ({["abc" := entry_abc]} : Registry) !! "abc" = Some entry_abc) by reflexivity.
  destruct (stream_loop_stops_at_failure "abc" 1000 [Chunk (replicate 500 x00) None]
              (Broken "Connection reset") [Chunk (replicate 500 x00) None] "Connection reset"
              0 {["abc" := entry_abc]} entry_abc Hd eq_refl eq_refl) as (H1 & H2 & _).
  split; [exact H1|]. split; [exact H2|]. vm_compute. reflexivity.
Defined.

Lemma progress_90_when_all_bytes_received_witness :
  0 <= 1000 /\ 0 < 1000 /\ progress_percent 1000 1000 = 90 /\ progress_percent 999 1000 < 90.
Proof.
  split; [lia|]. split; [lia|].
  destruct (progress_90_when_all_bytes_received 1000 1000 ltac:(lia) ltac:(lia)) as [H1 _].
  destruct (progress_90_when_all_bytes_received 999 1000 ltac:(lia) ltac:(lia)) as [_ H2].
  split; [apply H1; lia|apply H2; lia].
Defined.



Lemma progress_after_download_witness :
  (forall n reg, busy_elsewhere n reg !! "abc" = reg !! "abc") /\
  let done :=
    registry (run_among busy_elsewhere 0
                (download_file_background demo_cfg env_timeout "abc" (Some "a.mkv")
                   "/downloads/movies") ∅) in
  exists d,
    done !! "abc" = Some d /\
    result (run_among busy_elsewhere 0 (download_progress "abc") done) = inr (ProgressFound d) /\
    (status d = Completed \/ status d = Error).
Proof.
  assert (Hbusy : forall n reg, busy_elsewhere n reg !! "abc" = reg !! "abc")
    by (intros n reg; apply lookup_insert_ne; discriminate).
  split; [exact Hbusy|].
  exact (proj1 (progress_after_download demo_cfg env_timeout "abc" (Some "a.mkv")
                  "/downloads/movies" ∅ busy_elsewhere 0%nat busy_elsewhere 0%nat Hbusy Hbusy)).
Defined.

Lemma missing_metadata_key_fails_witness :
  registry (run (download_file_background demo_cfg env_no_url "abc" (Some "a.mkv")
                   "/downloads/movies") ∅)
  = {["abc" := error_entry (Some "a.mkv") "'downloadUrl'"]}.
Proof.
  destruct (missing_metadata_key_fails demo_cfg env_no_url "abc" (Some "a.mkv")
              "/downloads/movies" ∅ _ "downloadUrl" eq_refl (or_introl (conj eq_refl eq_refl)))
    as (_ & H & _).
  exact H.
Defined.

Lemma download_answers_500_when_entry_vanishes_witness :
  req_fileId request_abc = Some "abc" /\
  ({["abc" := entry_abc]} : Registry) !! "abc" = Some entry_abc /\
  result (run_among (evict_at "abc" 2) 0 (download demo_cfg (inr request_abc))
            {["abc" := entry_abc]})
    = inr (ServerError "'abc'").
Proof.
  assert (Hd : ({["abc" := entry_abc]} : Registry) !! "abc" = Some entry_abc) by reflexivity.
  split; [reflexivity|]. split; [exact Hd|].
  exact (proj1 (download_answers_500_when_entry_vanishes demo_cfg request_abc
                  {["abc" := entry_abc]} "abc" entry_abc 2 eq_refl ltac:(discriminate) Hd
                  (or_introl eq_refl))).
Defined.

Lemma progress_answers_500_when_entry_vanishes_witness :
  ({["abc" := entry_abc]} : Registry) !! "abc" = Some entry_abc /\
  result (run_among (evict_at "abc" 1) 0 (download_progress "abc") {["abc" := entry_abc]})
    = inr (ProgressError "'abc'").
Proof.
  assert (Hd : ({["abc" := entry_abc]} : Registry) !! "abc" = Some entry_abc) by reflexivity.
  split; [exact Hd|].
  exact (proj1 (progress_answers_500_when_entry_vanishes "abc" {["abc" := entry_abc]} entry_abc
                  Hd)).
Defined.

Lemma request_handlers_never_write_witness :
  match exec demo_cfg request_in_flight boot with
  | Some s =>
      match sys_step demo_cfg (Handle 0 env_plex_down) s with
      | Some s' => length (workers s') = 1%nat /\ active_downloads s' = active_downloads s
      | None => False
      end
  | None => False
  end.
Proof.
  destruct (exec demo_cfg request_in_flight boot) as [s|] eqn:Hex;
    [|vm_compute in Hex; discriminate].
  destruct (sys_step demo_cfg (Handle 0 env_plex_down) s) as [s'|] eqn:Hstep.
  - split.
    + vm_compute in Hex. injection Hex as <-. vm_compute in Hstep. injection Hstep as <-.
      reflexivity.
    + exact (request_handlers_never_write demo_cfg request_in_flight s 0 env_plex_down s'
               Hex Hstep).
  - vm_compute in Hex. injection Hex as <-. vm_compute in Hstep. discriminate.
Defined.

Lemma entries_only_for_requested_ids_witness :
  exec demo_cfg lone_failure boot = Some after_failure /\
  is_Some (active_downloads after_failure !! "abc") /\
  exists data, In (Request (inr data)) lone_failure /\ req_fileId data = Some "abc".
Proof.
  assert (H1 : exec demo_cfg lone_failure boot = Some after_failure) by (vm_compute; reflexivity).
  assert (H2 : is_Some (active_downloads after_failure !! "abc")) by (eexists; reflexivity).
  split; [exact H1|]. split; [exact H2|].
  exact (entries_only_for_requested_ids demo_cfg lone_failure after_failure "abc" H1 H2).
Defined.

Lemma listing_newest_first_witness :
  result (run (list_downloads demo_cfg demo_fs) ∅) = inr (Listing demo_listing) /\
  StronglySorted newer_or_same demo_listing.
Proof.
  assert (H : result (run (list_downloads demo_cfg demo_fs) ∅) = inr (Listing demo_listing))
    by (vm_compute; reflexivity).
  split; [exact H|].
  exact (proj1 (listing_newest_first demo_cfg demo_fs ∅ demo_listing H)).
Defined.

Lemma listing_names_regular_files_witness :
  result (run (list_downloads demo_cfg demo_fs) ∅) = inr (Listing demo_listing) /\
  In (mkFileEntry "s01e01.mkv" 300 "300 B" 200 Series) demo_listing /\
  ~ exists f, In f demo_listing /\ entry_name f = "extras".
Proof.
  assert (H : result (run (list_downloads demo_cfg demo_fs) ∅) = inr (Listing demo_listing))
    by (vm_compute; reflexivity).
  split; [exact H|]. split.
  - apply (listing_names_regular_files demo_cfg demo_fs ∅ demo_listing _ H).
    exists "/downloads/series", "s01e01.mkv", (mkStat 300 200).
    split; [right; split; reflexivity|]. split; [reflexivity|].
    split; [exists ["s01e01.mkv"]; split; [reflexivity|left; reflexivity]|].
    split; [reflexivity|]. split; reflexivity.
  - intros (f & Hin & Hname).
    apply (listing_names_regular_files demo_cfg demo_fs ∅ demo_listing _ H) in Hin.
    destruct Hin as (dir & filename & st & Hdir & _ & _ & Hfile & _ & Hf).
    rewrite Hf in Hname. cbn in Hname. subst filename.
    destruct Hdir as [[-> _]|[-> _]]; vm_compute in Hfile; discriminate.
Defined.

Lemma download_among_alone_witness :
  (forall n reg, busy_elsewhere n reg !! "abc" = reg !! "abc") /\
  let among := run_among busy_elsewhere 0
                 (download_file_background demo_cfg env_plex_down "abc" (Some "a.mkv")
                    "/downloads/movies") ∅ in
  status <$> registry among !! "abc" = Some Completed /\
  is_Some (registry among !! "zzz").
Proof.
  assert (H : forall n reg, busy_elsewhere n reg !! "abc" = reg !! "abc")
    by (intros n reg; apply lookup_insert_ne; discriminate).
  split; [exact H|].
  destruct (download_among_alone "abc" demo_cfg env_plex_down (Some "a.mkv") "/downloads/movies"
              busy_elsewhere 0 ∅ H) as (H1 & _).
  cbv zeta in H1. cbv zeta. rewrite H1. split; vm_compute; eauto.
Defined.

Lemma completion_fails_when_entry_gone_witness :
  (∅ : Registry) !! "abc" = None /\
  result (run (finish demo_cfg env_plex_down "abc" "a.mkv" "/downloads/movies/a.mkv" 1000) ∅)
    = inl "'abc'".
Proof.
  assert (Hd : (∅ : Registry) !! "abc" = None) by reflexivity.
  split; [exact Hd|].
  exact (proj1 (completion_fails_when_entry_gone demo_cfg env_plex_down "abc" "a.mkv"
                  "/downloads/movies/a.mkv" 1000 ∅ Hd)).
Defined.

Lemma file_path_of_download_witness :
  String.prefix "/" "/srv/a.mkv" = true /\
  filePath <$> registry (run (download_file_background demo_cfg env_plex_down "abc"
                                (Some "/srv/a.mkv") "/downloads/movies") ∅) !! "abc"
    = Some (Some "/srv/a.mkv").
Proof.
  split; [reflexivity|].
  destruct (file_path_of_download demo_cfg env_plex_down "abc" (Some "/srv/a.mkv")
              "/downloads/movies" ∅ metadata "http://host/file" "/srv/a.mkv" two_chunks 1000
              eq_refl eq_refl eq_refl eq_refl eq_refl eq_refl eq_refl eq_refl eq_refl)
    as (d & Hd & Habs & _).
  rewrite Hd. cbn. rewrite (Habs eq_refl). reflexivity.
Defined.
